(** * Util.resolveArgs: a shallow embedding of src/Util.js and its properties

  The development follows the source file top to bottom:

  - [JS]: the fragment of the JavaScript value model the resolver observes
    (truthiness, [=== undefined], property keys, [charAt], [substring],
    [Array.prototype.slice] with its negative-index rule);
  - [Util]: the private helpers [isRequired], [findTurningPoint], [prepare]
    and the exported [resolveArgs], as functions on lists and finite maps;
  - [Heap]: the same code over a store of arrays and objects, where
    [slice] and [concat] allocate, [reverse] mutates in place and
    [result[name] = arg] writes a freshly allocated object. *)

From Stdlib Require Import ZArith Lia.
From stdpp Require Import base option list strings pretty gmap.

(** ** The JavaScript fragment *)

Module JS.

(** First-order JavaScript values. [VNum] carries integer-valued numbers in
    the safe range (array lengths and indices are such numbers); objects are
    opaque references with the default string conversion and no [charAt]
    method. *)
Inductive value : Type :=
| VUndefined
| VNull
| VBool (b : bool)
| VNum (n : Z)
| VStr (s : string)
| VObj (ref : nat).

#[global] Instance value_eq_dec : EqDecision value.
Proof. solve_decision. Defined.

(** ToBoolean. *)
Definition truthy (v : value) : bool :=
  match v with
  | VUndefined | VNull => false
  | VBool b => b
  | VNum n => negb (n =? 0)%Z
  | VStr s => negb (String.eqb s "")
  | VObj _ => true
  end.

(** [v === undefined]. *)
Definition is_undefined (v : value) : bool :=
  match v with VUndefined => true | _ => false end.

(** ToPropertyKey followed by ToString: the own-property name under which
    [obj[v] = ...] stores. *)
Definition property_key (v : value) : string :=
  match v with
  | VUndefined => "undefined"
  | VNull => "null"
  | VBool true => "true"
  | VBool false => "false"
  | VNum n => pretty n
  | VStr s => s
  | VObj _ => "[object Object]"
  end%string.

(** [s.charAt(i)]: the one-character string at [i], or the empty string. *)
Definition charAt (s : string) (i : nat) : string :=
  match String.get i s with
  | Some c => String c EmptyString
  | None => EmptyString
  end.

(** [s.substring(n)]. *)
Fixpoint substring (n : nat) (s : string) : string :=
  match n, s with
  | O, _ => s
  | S n', String _ s' => substring n' s'
  | S _, EmptyString => EmptyString
  end.

(** The relative-index rule shared by the start and end arguments of
    [Array.prototype.slice]: a negative index counts from the end, and the
    result is clamped to [0 .. len]. *)
Definition relative_index (len : nat) (i : Z) : nat :=
  if (i <? 0)%Z then Z.to_nat (Z.max (Z.of_nat len + i) 0)%Z
  else Z.to_nat (Z.min i (Z.of_nat len))%Z.

(** [arr.slice(start)] is [slice arr start None];
    [arr.slice(start, end)] is [slice arr start (Some end)]. *)
Definition slice {A} (arr : list A) (start : Z) (end_ : option Z) : list A :=
  let len := length arr in
  let k := relative_index len start in
  let final := match end_ with
               | None => len
               | Some e => relative_index len e
               end in
  take (final - k) (drop k arr).

(** Abrupt completions. The only exception this code can raise by itself is
    the [TypeError] of calling [charAt] on something that has none. *)
Inductive error : Type := TypeError.

Inductive completion (A : Type) : Type :=
| Normal (a : A)
| Throw (e : error).
Arguments Normal {A} a.
Arguments Throw {A} e.

#[global] Instance completion_ret : MRet completion := @Normal.
#[global] Instance completion_bind : MBind completion :=
  fun A B k c => match c with Normal a => k a | Throw e => Throw e end.

End JS.

Import JS.

(** ** src/Util.js *)

Module Util.

(** An element of a spec array: a first-order value (a string, when the
    caller respects the documented formats) or a predicate function. *)
Inductive spec : Type :=
| SVal (v : value)
| SFun (f : value → value).

(** [arr[i]] on a spec array: out of range reads give [undefined]. *)
Definition spec_at (arr : list spec) (i : nat) : spec :=
  default (SVal VUndefined) (arr !! i).

(** The result object, by its own string-keyed data properties:
    [result[k] = v] creates or overwrites the own property [k]. This is what
    assignment does on an object created by [{}] for every key but
    ['__proto__']: that key is an accessor inherited from
    [Object.prototype], and assigning it creates no own property. Statements
    that bind names chosen by the caller therefore exclude that name (see
    [ordinary_names]). *)
Abbreviation obj := (gmap string value).

(** [isRequired]: [typeof spec === 'string' && spec.charAt(0) !== '?']. *)
Definition isRequired (sp : spec) : bool :=
  match sp with
  | SVal (VStr s) => negb (String.eqb (charAt s 0) "?")
  | _ => false
  end.

(** The [for] loop of [findTurningPoint], from index [i] over the elements
    [rest = arr[i..]]. *)
Fixpoint findTurningPoint_from (pred : spec → bool) (first : bool)
    (i : nat) (rest : list spec) : option nat :=
  match rest with
  | [] => None
  | x :: rest' =>
      if negb (eqb (pred x) first) then Some i
      else findTurningPoint_from pred first (S i) rest'
  end.

(** [findTurningPoint arr pred]: [None] is the source's [null]. *)
Definition findTurningPoint (arr : list spec) (pred : spec → bool) : option nat :=
  let first := pred (spec_at arr 0) in
  findTurningPoint_from pred first 1 (drop 1 arr).

(** [prepare]: [arr.slice(splitAt).reverse().concat(arr.slice(0, splitAt))]. *)
Definition prepare {A} (arr : list A) (splitAt : Z) : list A :=
  reverse (slice arr splitAt None) ++ slice arr 0 (Some splitAt).

(** ToBoolean of what [findTurningPoint] returned ([null] or an index). *)
Definition truthy_index (t : option nat) : bool :=
  match t with
  | Some (S _) => true
  | _ => false
  end.

(** [result[spec] = arg] converts [spec] to a property key. That statement is
    only reached for a required spec, which is a string ([isRequired] is false
    on everything else); a function's string form is not modelled. *)
Definition spec_key (sp : spec) : string :=
  match sp with
  | SVal v => property_key v
  | SFun _ => EmptyString
  end.

(** What one iteration decides for [spec] and [arg]: [Some k] when the
    iteration executes [result[k] = arg; argIndex++], [None] when it leaves
    both alone. The [else] branch computes
    [name = typeof spec === 'function' ? spec(arg)
            : (spec.charAt(0) !== '?' ? spec : spec.substring(1))]
    and tests [name || arg === undefined]. *)
Definition binding_name (sp : spec) (arg : value) : completion (option string) :=
  if isRequired sp then Normal (Some (spec_key sp))
  else
    name ← match sp with
           | SFun f => Normal (f arg)
           | SVal (VStr s) =>
               Normal (VStr (if negb (String.eqb (charAt s 0) "?") then s
                             else substring 1 s))
           | SVal _ => Throw TypeError
           end;
    if truthy name || is_undefined arg
    then Normal (Some (property_key name))
    else Normal None.

(** The loop body: the new [argIndex] and the updated [result]. *)
Definition body (sp : spec) (arg : value) (argIndex : nat) (result : obj)
    : completion (nat * obj) :=
  name ← binding_name sp arg;
  match name with
  | Some k => Normal (S argIndex, <[k := arg]> result)
  | None => Normal (argIndex, result)
  end.

(** The matching loop. [specIndex] advances by one on every iteration, so
    the loop is a recursion over the spec entries still ahead,
    [rest = preparedSpecs[specIndex..]]; it stops when they run out or when
    [argIndex] reaches [preparedArgs.length]. *)
Fixpoint loop (rest : list spec) (preparedArgs : list value)
    (argIndex : nat) (result : obj) : completion obj :=
  match rest with
  | [] => Normal result
  | sp :: rest' =>
      match preparedArgs !! argIndex with
      | None => Normal result
      | Some arg =>
          '(argIndex', result') ← body sp arg argIndex result;
          loop rest' preparedArgs argIndex' result'
      end
  end.

(** The two prepared arrays of [resolveArgs]. *)
Definition prepared (args : list value) (specs : list spec)
    : list spec * list value :=
  let turningPoint := findTurningPoint specs isRequired in
  if isRequired (spec_at specs 0) || negb (truthy_index turningPoint)
  then (specs, args)
  else
    let tp := Z.of_nat (default 0 turningPoint) in
    (prepare specs tp,
     prepare args (Z.of_nat (length args) - (Z.of_nat (length specs) - tp))%Z).

(** [resolveArgs(args, specs)], [specs] being the spec array (passed as one
    array, or collected from the variadic tail of the call; a call with no
    spec at all behaves as the empty array). *)
Definition resolveArgs (args : list value) (specs : list spec) : completion obj :=
  let result : obj := ∅ in
  let '(preparedSpecs, preparedArgs) := prepared args specs in
  loop preparedSpecs preparedArgs 0 result.

(** *** The other exported helpers *)

(** The loop of [find], from index [i] over [rest = arr[i..]]; [pred] gets
    the value, its index and the whole array, and its result is tested for
    truthiness. *)
Fixpoint find_from (arr : list value) (pred : value → nat → list value → value)
    (i : nat) (rest : list value) : value :=
  match rest with
  | [] => VNull
  | value :: rest' =>
      if truthy (pred value i arr) then value
      else find_from arr pred (S i) rest'
  end.

(** [find(arr, pred)]. *)
Definition find (arr : list value) (pred : value → nat → list value → value) : value :=
  find_from arr pred 0 arr.

(** [s.indexOf(search)], counted from [k]: the index of the first occurrence
    of [search], or -1. *)
Fixpoint indexOf_from (k : nat) (s search : string) : Z :=
  if String.prefix search s then Z.of_nat k
  else match s with
       | EmptyString => (-1)%Z
       | String _ s' => indexOf_from (S k) s' search
       end.

Definition indexOf (s search : string) : Z := indexOf_from 0 s search.

(** [startsWith(s1, s2)]: [s1.indexOf(s2) === 0]. *)
Definition startsWith (s1 s2 : string) : bool := (indexOf s1 s2 =? 0)%Z.

(** The own properties [shallowMerge] can copy by plain assignment: [source]
    has no own property ['hasOwnProperty'] (it would shadow the method the
    loop calls on [source]) and none called ['__proto__'] (assigning it to
    [dest] goes through the accessor inherited from [Object.prototype] and
    creates no own property). *)
Definition plain_props (source : obj) : Prop :=
  source !! "__proto__"%string = None ∧ source !! "hasOwnProperty"%string = None.

(** Names that [result[name] = arg] stores as own properties. *)
Definition ordinary_names (names : list string) : Prop :=
  "__proto__"%string ∉ names.

(** [shallowMerge(source, dest)], by the contents of the two objects, for a
    [source] with [plain_props]: the [for ... in] loop visits every own
    property of [source] once (the order does not matter, the keys being
    distinct) and stores it in [dest]. The version over the store is
    [Heap.shallowMerge]. *)
Definition shallowMerge (source dest : obj) : obj :=
  map_fold (λ prop v dest, <[prop := v]> dest) dest source.

(** [shallowMerge] of a [props] value that may be [undefined]:
    [for (var prop in undefined)] runs no iteration. *)
Definition shallowMerge_props (source : option obj) (dest : obj) : obj :=
  match source with
  | Some props => shallowMerge props dest
  | None => dest
  end.

(** An argument of a component call after the first: a value, or an array of
    such arguments. *)
#[warnings="-register-all"]
Inductive jsarg : Type :=
| AVal (v : value)
| AArr (elems : list jsarg).

(** A component constructor: a function called with a [props] argument (an
    object, or [None] when it is missing or falsy) and the arguments that
    follow it, carrying an optional [_props] property. *)
Record component (R : Type) : Type := Component {
  call : option obj → list jsarg → R;
  _props : option obj
}.
Arguments Component {R} call _props.
Arguments call {R} c props rest.
Arguments _props {R} c.

(** [arguments.length > 1 ? Array.prototype.slice.call(arguments, 1) : null],
    [rest] being [arguments[1..]]. *)
Definition effectiveChildren (rest : list jsarg) : jsarg :=
  match rest with
  | [] => AVal VNull
  | _ :: _ => AArr rest
  end.

(** The function [f] that [papply] returns, [f_props] being its [_props]. *)
Definition papply_f {R} (comp : component R) (f_props : option obj)
    (props2 : option obj) (rest : list jsarg) : R :=
  match props2 with
  | Some props2 =>
      let effectiveProps :=
        match f_props with
        | Some f_props => shallowMerge props2 (shallowMerge f_props ∅)
        | None => props2
        end in
      call comp (Some effectiveProps) [effectiveChildren rest]
  | None => call comp f_props [effectiveChildren rest]
  end.

(** [papply(comp, props, override)]; [override] is any value, compared with
    [override !== false]. *)
Definition papply {R} (comp : component R) (props : option obj) (override : value)
    : component R :=
  let f_props :=
    match _props comp with
    | Some comp_props =>
        Some (if negb (bool_decide (override = VBool false))
              then shallowMerge_props props (shallowMerge comp_props ∅)
              else shallowMerge comp_props (shallowMerge_props props ∅))
    | None => props
    end in
  Component (papply_f comp f_props) f_props.

End Util.


Import Util.

(** ** The same code over a store

    [Util] computes with array contents. The source works on references:
    [specs] and [args] are the caller's arrays, [slice] and [concat] allocate
    new arrays, [reverse] rewrites its receiver in place, and
    [result[name] = arg] writes the object allocated by [var result = {}]. *)

Module Heap.

Definition loc := nat.

(** What a location holds: an array of values (an Array, or an array-like
    [arguments] object when [is_array] is false), an array of spec entries,
    or a plain object. *)
Inductive cell : Type :=
| CArgs (is_array : bool) (elems : list value)
| CSpecs (elems : list spec)
| CObj (props : gmap string value).

Abbreviation store := (gmap loc cell).

(** A computation over the store. It is [None] when it reads a location that
    does not hold what the operation needs (an ill-formed call), or when the
    loop runs out of fuel; a thrown exception keeps the store. *)
Definition M (A : Type) : Type := store → option (completion A * store).

#[global] Instance M_ret : MRet M := λ A a σ, Some (Normal a, σ).
#[global] Instance M_bind : MBind M := λ A B k m σ,
  match m σ with
  | Some (Normal a, σ') => k a σ'
  | Some (Throw e, σ') => Some (Throw e, σ')
  | None => None
  end.

Definition stuck {A} : M A := λ _, None.

Definition lift {A} (c : completion A) : M A := λ σ, Some (c, σ).

Definition load (l : loc) : M cell := λ σ,
  match σ !! l with
  | Some c => Some (Normal c, σ)
  | None => None
  end.

Definition store_cell (l : loc) (c : cell) : M unit := λ σ,
  Some (Normal tt, <[l := c]> σ).

(** Allocation picks a location the store does not use. *)
Definition alloc (c : cell) : M loc := λ σ,
  let l := fresh (dom σ) in Some (Normal l, <[l := c]> σ).

Definition cell_slice (c : cell) (start : Z) (end_ : option Z) : option cell :=
  match c with
  | CArgs _ xs => Some (CArgs true (slice xs start end_))
  | CSpecs xs => Some (CSpecs (slice xs start end_))
  | CObj _ => None
  end.

Definition cell_reverse (c : cell) : option cell :=
  match c with
  | CArgs b xs => Some (CArgs b (reverse xs))
  | CSpecs xs => Some (CSpecs (reverse xs))
  | CObj _ => None
  end.

Definition cell_concat (c1 c2 : cell) : option cell :=
  match c1, c2 with
  | CArgs true xs, CArgs true ys => Some (CArgs true (xs ++ ys))
  | CSpecs xs, CSpecs ys => Some (CSpecs (xs ++ ys))
  | _, _ => None
  end.

Definition cell_length (c : cell) : option nat :=
  match c with
  | CArgs _ xs => Some (length xs)
  | CSpecs xs => Some (length xs)
  | CObj _ => None
  end.

(** [a.slice(start, end)] and [Array.prototype.slice.call(a, start, end)]:
    a new array. *)
Definition arr_slice (a : loc) (start : Z) (end_ : option Z) : M loc :=
  c ← load a;
  match cell_slice c start end_ with
  | Some c' => alloc c'
  | None => stuck
  end.

(** [a.reverse()]: reverses [a] in place and returns [a] itself. *)
Definition arr_reverse (a : loc) : M loc :=
  c ← load a;
  match cell_reverse c with
  | Some c' => store_cell a c';; mret a
  | None => stuck
  end.

(** [a.concat(b)]: a new array. *)
Definition arr_concat (a b : loc) : M loc :=
  ca ← load a;
  cb ← load b;
  match cell_concat ca cb with
  | Some c => alloc c
  | None => stuck
  end.

(** [a.length]. *)
Definition arr_length (a : loc) : M nat :=
  c ← load a;
  match cell_length c with
  | Some n => mret n
  | None => stuck
  end.

(** [Array.isArray(a)]. *)
Definition isArray (a : loc) : M bool :=
  c ← load a;
  mret (match c with
        | CArgs b _ => b
        | CSpecs _ => true
        | CObj _ => false
        end).

Definition read_specs (a : loc) : M (list spec) :=
  c ← load a;
  match c with
  | CSpecs ss => mret ss
  | _ => stuck
  end.

Definition read_args (a : loc) : M (list value) :=
  c ← load a;
  match c with
  | CArgs _ xs => mret xs
  | _ => stuck
  end.

(** [o[k] = v], for every key but ['__proto__'] (see [obj]). *)
Definition obj_set (o : loc) (k : string) (v : value) : M unit :=
  c ← load o;
  match c with
  | CObj m => store_cell o (CObj (<[k := v]> m))
  | _ => stuck
  end.

(** [prepare]: [arr.slice(splitAt).reverse().concat(arr.slice(0, splitAt))]. *)
Definition prepare (arr : loc) (splitAt : Z) : M loc :=
  tail ← arr_slice arr splitAt None;
  tail ← arr_reverse tail;
  front ← arr_slice arr 0 (Some splitAt);
  arr_concat tail front.

(** The matching loop, reading both arrays and writing [result] through the
    store on every iteration. [fuel] bounds the iterations left; the caller
    passes [preparedSpecs.length], which [specIndex++] never exceeds. *)
Fixpoint loop (fuel : nat) (preparedSpecs preparedArgs result : loc)
    (specIndex argIndex : nat) : M unit :=
  specsLength ← arr_length preparedSpecs;
  argsLength ← arr_length preparedArgs;
  if (specIndex <? specsLength) && (argIndex <? argsLength) then
    match fuel with
    | O => stuck
    | S fuel' =>
        ss ← read_specs preparedSpecs;
        xs ← read_args preparedArgs;
        let sp := spec_at ss specIndex in
        let arg := default VUndefined (xs !! argIndex) in
        name ← lift (binding_name sp arg);
        match name with
        | Some k =>
            obj_set result k arg;;
            loop fuel' preparedSpecs preparedArgs result (S specIndex) (S argIndex)
        | None =>
            loop fuel' preparedSpecs preparedArgs result (S specIndex) argIndex
        end
    end
  else mret tt.

(** [resolveArgs(args, specs)] with [specs] an Array. *)
Definition resolveArgs (args specs : loc) : M loc :=
  result ← alloc (CObj ∅);
  ss ← read_specs specs;
  let turningPoint := findTurningPoint ss isRequired in
  '(preparedSpecs, preparedArgs) ←
    (if isRequired (spec_at ss 0) || negb (truthy_index turningPoint)
     then mret (specs, args)
     else
       is_array ← isArray args;
       effectiveArgs ← (if is_array : bool then mret args
                        else arr_slice args 0 None);
       let tp := Z.of_nat (default 0 turningPoint) in
       preparedSpecs ← prepare specs tp;
       argsLength ← arr_length effectiveArgs;
       specsLength ← arr_length specs;
       preparedArgs ← prepare effectiveArgs
         (Z.of_nat argsLength - (Z.of_nat specsLength - tp))%Z;
       mret (preparedSpecs, preparedArgs));
  fuel ← arr_length preparedSpecs;
  loop fuel preparedSpecs preparedArgs result 0 0;;
  mret result.

(** [o[k]]: [undefined] when [o] has no such property. *)
Definition obj_get (o : loc) (k : string) : M value :=
  c ← load o;
  match c with
  | CObj m => mret (default VUndefined (m !! k))
  | _ => stuck
  end.

(** [o.hasOwnProperty(k)], the method inherited from [Object.prototype]: [o]
    is taken to have no own property of that name ([plain_props]). *)
Definition hasOwnProperty (o : loc) (k : string) : M bool :=
  c ← load o;
  match c with
  | CObj m => mret (bool_decide (is_Some (m !! k)))
  | _ => stuck
  end.

(** The property names a [for (var prop in o)] loop visits on a plain
    object: its own properties. *)
Definition for_in_keys (o : loc) : M (list string) :=
  c ← load o;
  match c with
  | CObj m => mret (fst <$> map_to_list m)
  | _ => stuck
  end.

(** The body of the [for ... in] loop of [shallowMerge], over the property
    names still to visit. *)
Fixpoint shallowMerge_loop (props : list string) (source dest : loc) : M unit :=
  match props with
  | [] => mret tt
  | prop :: props' =>
      own ← hasOwnProperty source prop;
      (if own : bool then
         v ← obj_get source prop;
         obj_set dest prop v
       else mret tt);;
      shallowMerge_loop props' source dest
  end.

(** [shallowMerge(source, dest)]: writes [dest] in place and returns it. *)
Definition shallowMerge (source dest : loc) : M loc :=
  props ← for_in_keys source;
  shallowMerge_loop props source dest;;
  mret dest.

(** [wp m σ Q]: from the store [σ], [m] completes (normally or by throwing)
    and the completion and final store satisfy [Q]. *)
Definition wp {A} (m : M A) (σ : store) (Q : completion A → store → Prop) : Prop :=
  ∃ c σ', m σ = Some (c, σ') ∧ Q c σ'.

End Heap.

(** ** Example data: the inputs the specification names *)

(** The predicate of the specification's predicate test: ['x'] for a number,
    [null] otherwise. *)
Definition number_named_x (v : value) : value :=
  match v with
  | VNum _ => VStr "x"
  | _ => VNull
  end.

Definition name_spec (s : string) : spec := SVal (VStr s).

(** The spec ['?' + name] of an optional argument called [name]. *)
Definition optional_spec (name : string) : spec := name_spec ("?" +:+ name).

(** A name spec paired with the property name it binds. *)
Definition required_entry (s : string) : spec * string := (name_spec s, s).
Definition optional_entry (x : string) : spec * string := (optional_spec x, x).

(** One visit of the [for ... in] loop of [shallowMerge], on the contents of
    [source] and [dest]. *)
Definition merge_visit (source : obj) (dest : obj) (prop : string) : obj :=
  match source !! prop with
  | Some v => <[prop := v]> dest
  | None => dest
  end.

(** The entries the documentation of [resolveArgs] admits in a spec array:
    strings ('foo', '?foo') and check functions. *)
Definition well_formed_spec (sp : spec) : bool :=
  match sp with
  | SVal (VStr _) => true
  | SFun _ => true
  | SVal _ => false
  end.

(** The predicate test: spec list [[fn, 'b']], arguments [['text', 2]]. *)
Definition predicate_test_specs : list spec := [SFun number_named_x; name_spec "b"].
Definition predicate_test_args : list value := [VStr "text"; VNum 2].

(** The rotation test: spec list [['?a', '?b', 'c']], arguments [[1, 2]]. *)
Definition rotation_test_specs : list spec :=
  [name_spec "?a"; name_spec "?b"; name_spec "c"].
Definition rotation_test_args : list value := [VNum 1; VNum 2].

(** A store for a call [resolveArgs(arguments, ['?a', 'b', 'c'])]: location 0
    holds the caller's array-like [arguments] object, location 1 the spec
    array. *)
Definition example_store : Heap.store :=
  {[ 0 := Heap.CArgs false [VNum 1; VNum 2; VNum 3];
     1 := Heap.CSpecs [name_spec "?a"; name_spec "b"; name_spec "c"] ]}.
(** ** Facts about the JavaScript fragment *)

Section slice_facts.
Context {A : Type}.
Implicit Types (arr : list A) (k : Z).

Lemma relative_index_le len k : relative_index len k ≤ len.
Proof. unfold relative_index. case_match; lia. Qed.

Lemma relative_index_in_range len k :
  (0 ≤ k ≤ Z.of_nat len)%Z → relative_index len k = Z.to_nat k.
Proof. intros Hk. unfold relative_index. case_match; lia. Qed.

Lemma slice_from arr k :
  slice arr k None = drop (relative_index (length arr) k) arr.
Proof.
  unfold slice. apply take_ge. rewrite length_drop. lia.
Qed.

Lemma slice_upto arr k :
  slice arr 0 (Some k) = take (relative_index (length arr) k) arr.
Proof.
  unfold slice. replace (relative_index (length arr) 0) with 0.
  - rewrite drop_0. f_equal. lia.
  - unfold relative_index. simpl. lia.
Qed.

Lemma prepare_unfold arr k :
  prepare arr k =
  reverse (drop (relative_index (length arr) k) arr)
  ++ take (relative_index (length arr) k) arr.
Proof. unfold prepare. by rewrite slice_from, slice_upto. Qed.

Lemma prepare_length arr k : length (prepare arr k) = length arr.
Proof.
  rewrite prepare_unfold, length_app, length_reverse, length_drop, length_take.
  pose proof (relative_index_le (length arr) k). lia.
Qed.

Lemma prepare_Forall (P : A → Prop) arr k : Forall P arr → Forall P (prepare arr k).
Proof.
  intros H. rewrite prepare_unfold. apply Forall_app. split.
  - apply Forall_reverse. by apply Forall_drop.
  - by apply Forall_take.
Qed.

End slice_facts.

(** ** Facts about the helpers of [resolveArgs] *)

Lemma isRequired_inv sp :
  isRequired sp = true →
  ∃ s, sp = SVal (VStr s) ∧ charAt s 0 ≠ "?"%string ∧ spec_key sp = s.
Proof.
  destruct sp as [[]|]; simpl; try discriminate.
  intros H. eexists; split; [done|]. split; [|done].
  intros E. rewrite E in H. discriminate.
Qed.

Lemma findTurningPoint_from_Some pred first i rest t :
  findTurningPoint_from pred first i rest = Some t →
  i ≤ t < i + length rest
  ∧ (∃ x, rest !! (t - i) = Some x ∧ pred x ≠ first)
  ∧ ∀ j x, j < t - i → rest !! j = Some x → pred x = first.
Proof.
  revert i. induction rest as [|x rest IH]; intros i; simpl; [discriminate|].
  destruct (eqb (pred x) first) eqn:E; simpl.
  - intros H. apply IH in H as (Hr & (y & Hy & Hne) & Hlt).
    apply eqb_prop in E. split; [lia|]. split.
    + exists y. split; [|done].
      replace (t - i) with (S (t - S i)) by lia. done.
    + intros j z Hj Hz. destruct j as [|j]; simpl in Hz.
      * congruence.
      * apply (Hlt j); [lia|done].
  - intros [= <-]. split; [lia|]. rewrite Nat.sub_diag. split.
    + exists x. split; [done|]. intros Heq. rewrite Heq, eqb_reflx in E. discriminate.
    + intros j z Hj. lia.
Qed.

(** The turning point is the first index whose classification differs from
    the classification of index 0; it is never 0. *)
Lemma findTurningPoint_Some arr pred t :
  findTurningPoint arr pred = Some t →
  1 ≤ t < length arr
  ∧ pred (spec_at arr t) ≠ pred (spec_at arr 0)
  ∧ ∀ i, i < t → pred (spec_at arr i) = pred (spec_at arr 0).
Proof.
  unfold findTurningPoint. intros H.
  apply findTurningPoint_from_Some in H as (Hr & (x & Hx & Hne) & Hlt).
  rewrite length_drop in Hr. rewrite lookup_drop in Hx.
  split; [lia|]. split.
  - unfold spec_at at 1. replace (1 + (t - 1)) with t in Hx by lia. by rewrite Hx.
  - intros i Hi. destruct i as [|i]; [done|].
    destruct (arr !! S i) as [y|] eqn:Hy.
    + unfold spec_at at 1. rewrite Hy. simpl. apply (Hlt i); [lia|].
      by rewrite lookup_drop.
    + apply lookup_ge_None in Hy. lia.
Qed.

Lemma truthy_index_turning_point arr pred t :
  findTurningPoint arr pred = Some t → truthy_index (Some t) = true.
Proof.
  intros H. apply findTurningPoint_Some in H as [Hr _].
  destruct t; [lia|done].
Qed.

(** The two branches of the [if] that prepares the arrays. *)
Lemma prepared_in_order args specs :
  isRequired (spec_at specs 0) = true ∨ findTurningPoint specs isRequired = None →
  prepared args specs = (specs, args).
Proof.
  unfold prepared. intros [-> | ->]; [done|]. by rewrite orb_true_r.
Qed.

Lemma prepared_rotated args specs t :
  isRequired (spec_at specs 0) = false →
  findTurningPoint specs isRequired = Some t →
  prepared args specs =
  (prepare specs (Z.of_nat t),
   prepare args (Z.of_nat (length args) - (Z.of_nat (length specs) - Z.of_nat t))%Z).
Proof.
  intros H0 Ht. unfold prepared. rewrite H0, Ht.
  by rewrite (truthy_index_turning_point _ _ _ Ht).
Qed.

Lemma prepared_lengths args specs :
  length (prepared args specs).1 = length specs
  ∧ length (prepared args specs).2 = length args.
Proof.
  unfold prepared. case_match; simpl; [done|].
  by rewrite !prepare_length.
Qed.

(** ** The worked examples of the specification *)

(** The two remaining literal examples of the specification, and the case
    the rotation exists for (the optional leading argument left out). *)
Example optional_then_required :
  resolveArgs [VNum 1; VNum 2] [name_spec "?a"; name_spec "b"]
  = Normal {[ "a"%string := VNum 1; "b"%string := VNum 2 ]}.
Proof. reflexivity. Qed.

Example required_then_optional :
  resolveArgs [VNum 1] [name_spec "a"; name_spec "?b"]
  = Normal {[ "a"%string := VNum 1 ]}.
Proof. reflexivity. Qed.

Example optional_left_out :
  resolveArgs [VNum 2] [name_spec "?a"; name_spec "b"]
  = Normal {[ "b"%string := VNum 2 ]}.
Proof. reflexivity. Qed.

Lemma Normal_inj {A} (a b : A) : Normal a = Normal b → a = b.
Proof. congruence. Qed.

Lemma predicate_test_value :
  resolveArgs predicate_test_args predicate_test_specs
  = Normal {[ "b"%string := VNum 2 ]}.
Proof. reflexivity. Qed.

Lemma rotation_test_value :
  resolveArgs rotation_test_args rotation_test_specs
  = Normal {[ "c"%string := VNum 2; "a"%string := VNum 1 ]}.
Proof. reflexivity. Qed.

(** C1, as stated, fails: for [[fn, 'b']] and [['text', 2]] the resolver does
    not return a mapping in which 'b' is bound to 'text'. *)
Lemma predicate_test_b_is_not_text :
  ¬ ∃ m, resolveArgs predicate_test_args predicate_test_specs = Normal m
         ∧ m !! "b"%string = Some (VStr "text").
Proof.
  intros (m & Hm & Hb). rewrite predicate_test_value in Hm.
  apply Normal_inj in Hm as <-. by vm_compute in Hb.
Qed.

(** C1, amended: for [[fn, 'b']] and [['text', 2]] the turning point is 1, so
    the required 'b' is processed first against the last argument; the
    resolver returns the mapping whose only binding is 'b' bound to 2 (the
    predicate then rejects 'text', which stays unbound). *)
Theorem predicate_test_binds_b_to_2 :
  findTurningPoint predicate_test_specs isRequired = Some 1
  ∧ prepared predicate_test_args predicate_test_specs
    = ([name_spec "b"; SFun number_named_x], [VNum 2; VStr "text"])
  ∧ resolveArgs predicate_test_args predicate_test_specs
    = Normal {[ "b"%string := VNum 2 ]}.
Proof. repeat split; done. Qed.

(** C2, as stated, fails: for [['?a', '?b', 'c']] and [[1, 2]] the turning
    point is 2, but 'c' is not bound to 1. *)
Lemma rotation_test_c_is_not_1 :
  ¬ (findTurningPoint rotation_test_specs isRequired = Some 2
     ∧ ∃ m, resolveArgs rotation_test_args rotation_test_specs = Normal m
            ∧ m !! "c"%string = Some (VNum 1)).
Proof.
  intros (_ & m & Hm & Hc). rewrite rotation_test_value in Hm.
  apply Normal_inj in Hm as <-. by vm_compute in Hc.
Qed.

(** C2, amended: for [['?a', '?b', 'c']] and [[1, 2]] the turning point is
    index 2 and the resolver returns exactly [{c: 2, a: 1}]: 'c' takes the
    last argument, 'a' the first, and 'b' is absent. *)
Theorem rotation_test_result :
  findTurningPoint rotation_test_specs isRequired = Some 2
  ∧ prepared rotation_test_args rotation_test_specs
    = ([name_spec "c"; name_spec "?a"; name_spec "?b"], [VNum 2; VNum 1])
  ∧ resolveArgs rotation_test_args rotation_test_specs
    = Normal {[ "c"%string := VNum 2; "a"%string := VNum 1 ]}
  ∧ ({[ "c"%string := VNum 2; "a"%string := VNum 1 ]} : obj) !! "b"%string = None.
Proof. repeat split; done. Qed.

(** ** The rotation *)

(** C3, as stated, fails: with specs [['?a', 'b', 'c']] (turning point 1) the
    resolver processes [['c', 'b', '?a']], not the order-preserving rotation
    [['b', 'c', '?a']]. *)
Lemma prepared_specs_not_order_preserving :
  let specs := [name_spec "?a"; name_spec "b"; name_spec "c"] in
  let args := [VNum 1; VNum 2; VNum 3] in
  isRequired (spec_at specs 0) = false
  ∧ findTurningPoint specs isRequired = Some 1
  ∧ (prepared args specs).1 = [name_spec "c"; name_spec "b"; name_spec "?a"]
  ∧ (prepared args specs).1 ≠ drop 1 specs ++ take 1 specs.
Proof.
  repeat split; done.
Qed.

(** C3, amended: when the spec list begins with a non-required entry and has
    turning point [t], the spec list the resolver processes is
    [reverse specs[t..] ++ specs[0..t)]: the segment starting at the turning
    point comes first, in reversed order, and the leading segment comes last
    in its original order. The argument list is reordered by the same
    function, split at [len(args) - (len(specs) - t)] (an index [slice]
    resolves relative to the end when it is negative). *)
Theorem prepared_is_reversed_rotation (args : list value) (specs : list spec) (t : nat) :
  isRequired (spec_at specs 0) = false →
  findTurningPoint specs isRequired = Some t →
  (prepared args specs).1 = reverse (drop t specs) ++ take t specs
  ∧ (prepared args specs).2
    = prepare args (Z.of_nat (length args) - (Z.of_nat (length specs) - Z.of_nat t))%Z
  ∧ (length specs - t ≤ length args →
     (prepared args specs).2
     = reverse (drop (length args - (length specs - t)) args)
       ++ take (length args - (length specs - t)) args)
  ∧ resolveArgs args specs
    = loop (reverse (drop t specs) ++ take t specs) (prepared args specs).2 0 ∅.
Proof.
  intros H0 Ht.
  pose proof (findTurningPoint_Some _ _ _ Ht) as (Hr & _).
  assert (Hs : prepare specs (Z.of_nat t) = reverse (drop t specs) ++ take t specs).
  { rewrite prepare_unfold, relative_index_in_range by lia.
    by rewrite Nat2Z.id. }
  unfold resolveArgs. rewrite (prepared_rotated _ _ _ H0 Ht). simpl.
  rewrite Hs. split; [done|]. split; [done|]. split; [|done].
  intros Hlen. rewrite prepare_unfold, relative_index_in_range by lia.
  by replace (Z.to_nat (Z.of_nat (length args) - (Z.of_nat (length specs) - Z.of_nat t)))
    with (length args - (length specs - t)) by lia.
Qed.

Lemma prepared_is_reversed_rotation_witness :
  (prepared [VNum 1; VNum 2; VNum 3]
     [name_spec "?a"; name_spec "b"; name_spec "c"]).1
  = reverse (drop 1 [name_spec "?a"; name_spec "b"; name_spec "c"])
    ++ take 1 [name_spec "?a"; name_spec "b"; name_spec "c"].
Proof.
  apply (prepared_is_reversed_rotation
           [VNum 1; VNum 2; VNum 3]
           [name_spec "?a"; name_spec "b"; name_spec "c"] 1);
    reflexivity.
Defined.

(** C5, as stated, fails: for specs [['?a', 'b', 'c']] (turning point 1) and
    arguments [[1, 2, 3]], [len(args) - (len(specs) - turningPoint)] is 1,
    but the trailing slice moved to the front, [args.slice(1)], has size 2. *)
Lemma trailing_slice_size_is_not_split_index :
  let specs := [name_spec "?a"; name_spec "b"; name_spec "c"] in
  let args := [VNum 1; VNum 2; VNum 3] in
  let splitAt := (Z.of_nat (length args) - (Z.of_nat (length specs) - 1))%Z in
  findTurningPoint specs isRequired = Some 1
  ∧ (prepared args specs).2 = reverse (slice args splitAt None) ++ slice args 0 (Some splitAt)
  ∧ slice args splitAt None = [VNum 2; VNum 3]
  ∧ Z.of_nat (length (slice args splitAt None)) ≠ splitAt.
Proof. repeat split; done. Qed.

(** C5, amended: when rotation applies, [len(args) - (len(specs) -
    turningPoint)] is the index at which the argument list is split. Provided
    the arguments are at least as many as the spec entries from the turning
    point on, the trailing slice moved to the front has size
    [len(specs) - turningPoint], the count of spec entries moved to the front
    of the rotated spec list, and the leading slice that follows has size
    [len(args) - (len(specs) - turningPoint)]; the spec entries moved to the
    end are [turningPoint] many. *)
Theorem rotation_slice_sizes (args : list value) (specs : list spec) (t : nat) :
  isRequired (spec_at specs 0) = false →
  findTurningPoint specs isRequired = Some t →
  length specs - t ≤ length args →
  ∀ splitAt, splitAt = (Z.of_nat (length args) - (Z.of_nat (length specs) - Z.of_nat t))%Z →
  prepared args specs
  = (reverse (slice specs (Z.of_nat t) None) ++ slice specs 0 (Some (Z.of_nat t)),
     reverse (slice args splitAt None) ++ slice args 0 (Some splitAt))
  ∧ length (slice args splitAt None) = length specs - t
  ∧ length (slice specs (Z.of_nat t) None) = length specs - t
  ∧ length (slice args 0 (Some splitAt)) = length args - (length specs - t)
  ∧ length (slice specs 0 (Some (Z.of_nat t))) = t.
Proof.
  intros H0 Ht Hlen splitAt ->.
  pose proof (findTurningPoint_Some _ _ _ Ht) as (Hr & _).
  split; [by rewrite (prepared_rotated _ _ _ H0 Ht)|].
  rewrite !slice_from, !slice_upto, !length_drop, !length_take.
  rewrite !relative_index_in_range by lia. lia.
Qed.

Lemma rotation_slice_sizes_witness :
  length (slice [VNum 1; VNum 2; VNum 3] 1 None) = 3 - 1.
Proof.
  apply (rotation_slice_sizes
           [VNum 1; VNum 2; VNum 3]
           [name_spec "?a"; name_spec "b"; name_spec "c"] 1);
    [reflexivity | reflexivity | simpl; lia | reflexivity].
Defined.

(** ** The matching loop *)

Lemma body_required sp arg argIndex (result : obj) :
  isRequired sp = true →
  body sp arg argIndex result = Normal (S argIndex, <[spec_key sp := arg]> result).
Proof. intros H. unfold body, binding_name. by rewrite H. Qed.

Lemma body_predicate f arg argIndex (result : obj) :
  body (SFun f) arg argIndex result =
  if truthy (f arg) || is_undefined arg
  then Normal (S argIndex, <[property_key (f arg) := arg]> result)
  else Normal (argIndex, result).
Proof. unfold body, binding_name. simpl. by case_match. Qed.


Lemma body_well_formed sp arg argIndex (result : obj) :
  well_formed_spec sp = true → ∃ st, body sp arg argIndex result = Normal st.
Proof.
  unfold body, binding_name. destruct sp as [[]|]; try discriminate; intros _; simpl.
  - repeat case_match; eauto.
  - repeat case_match; eauto.
Qed.

Lemma loop_cons sp rest preparedArgs argIndex (result : obj) arg :
  preparedArgs !! argIndex = Some arg →
  loop (sp :: rest) preparedArgs argIndex result =
  match body sp arg argIndex result with
  | Normal (argIndex', result') => loop rest preparedArgs argIndex' result'
  | Throw e => Throw e
  end.
Proof. intros H. simpl. rewrite H. by destruct (body _ _ _ _) as [[]|]. Qed.

Lemma loop_well_formed rest preparedArgs argIndex (result : obj) :
  Forall (λ sp, well_formed_spec sp = true) rest →
  ∃ m, loop rest preparedArgs argIndex result = Normal m.
Proof.
  intros H. revert argIndex result.
  induction H as [|sp rest Hsp _ IH]; intros argIndex result; simpl; [eauto|].
  destruct (preparedArgs !! argIndex) as [arg|]; [|eauto].
  destruct (body_well_formed sp arg argIndex result Hsp) as [[ai r] ->]. simpl.
  apply IH.
Qed.


(** A spec list of required names binds positionally. *)
Lemma loop_all_required names args argIndex (result : obj) :
  Forall (λ s, charAt s 0 ≠ "?"%string) names →
  NoDup names →
  argIndex + length names ≤ length args →
  loop (name_spec <$> names) args argIndex result
  = Normal (list_to_map (zip names (drop argIndex args)) ∪ result).
Proof.
  intros Hreq. revert argIndex result.
  induction Hreq as [|s names Hs _ IH]; intros argIndex result Hnd Hlen; simpl.
  - by rewrite (left_id_L ∅ (∪)).
  - simpl in Hlen. apply NoDup_cons in Hnd as [Hnotin Hnd].
    destruct (args !! argIndex) as [arg|] eqn:Harg;
      [|apply lookup_ge_None in Harg; lia].
    rewrite body_required; [simpl|].
    2:{ simpl. destruct (String.eqb_spec (charAt s 0) "?"); [done|done]. }
    rewrite IH by (done || lia).
    rewrite (drop_S _ _ _ Harg). simpl.
    rewrite <- insert_union_r; [by rewrite insert_union_l|].
    apply not_elem_of_list_to_map_1. rewrite fst_zip; [done|].
    rewrite length_drop. lia.
Qed.

(** C4, as stated, fails for the argument [undefined]: a predicate that
    returns [null] on [undefined] still gets it bound (under the string form
    of the returned name) and the argument cursor advances, so the next spec
    entry sees the next argument. *)
Lemma predicate_reject_consumes_undefined :
  truthy (number_named_x VUndefined) = false
  ∧ body (SFun number_named_x) VUndefined 0 ∅
    = Normal (1, {[ "null"%string := VUndefined ]})
  ∧ body (SFun number_named_x) VUndefined 0 ∅ ≠ Normal (0, ∅)
  ∧ resolveArgs [VUndefined; VNum 7] [SFun number_named_x; name_spec "?b"]
    = Normal {[ "null"%string := VUndefined; "b"%string := VNum 7 ]}.
Proof.
  assert (Hb : body (SFun number_named_x) VUndefined 0 ∅
               = Normal (1, {[ "null"%string := VUndefined ]})) by reflexivity.
  split; [done|]. split; [done|]. split; [|reflexivity].
  rewrite Hb. intros H. apply Normal_inj in H. by apply (f_equal fst) in H.
Qed.

(** C4, amended: whenever a predicate spec entry is evaluated against the
    current argument and returns a falsy name, and the argument is not
    [undefined], no binding is added and the argument cursor does not
    advance, while the spec cursor advances, so the same argument is tested
    against the next spec entry. For the argument [undefined] the guard
    [name || arg === undefined] takes the consuming branch: the argument
    cursor advances, and so does the spec cursor. *)
Theorem predicate_reject_keeps_argument
    (f : value → value) (arg : value) (rest : list spec)
    (preparedArgs : list value) (argIndex : nat) (result : obj) :
  truthy (f arg) = false →
  preparedArgs !! argIndex = Some arg →
  (arg ≠ VUndefined →
     body (SFun f) arg argIndex result = Normal (argIndex, result)
     ∧ loop (SFun f :: rest) preparedArgs argIndex result
       = loop rest preparedArgs argIndex result)
  ∧ (arg = VUndefined →
     ∃ result',
       body (SFun f) arg argIndex result = Normal (S argIndex, result')
       ∧ loop (SFun f :: rest) preparedArgs argIndex result
         = loop rest preparedArgs (S argIndex) result').
Proof.
  intros Hf Harg. rewrite (loop_cons _ _ _ _ _ _ Harg), body_predicate, Hf.
  split.
  - intros Hne. by destruct arg.
  - intros ->. eauto.
Qed.

Lemma predicate_reject_keeps_argument_witness :
  loop [SFun number_named_x; name_spec "b"] [VStr "text"; VNum 2] 0 ∅
  = loop [name_spec "b"] [VStr "text"; VNum 2] 0 ∅.
Proof.
  apply (predicate_reject_keeps_argument number_named_x (VStr "text")
           [name_spec "b"] [VStr "text"; VNum 2] 0 ∅);
    [reflexivity | reflexivity | discriminate].
Defined.

(** The positional binding C6 asks for, for every name but ['__proto__']:
    for a spec list of [N] pairwise-distinct required names (strings not
    beginning with '?', none of them ['__proto__']) and at least [N]
    arguments, the resolver returns exactly the mapping that binds the i-th
    name to the i-th argument; its keys are the names, and the arguments
    from position [N] on play no part in it. At the name ['__proto__'] the
    code binds nothing: [result['__proto__'] = arg] goes through the
    accessor inherited from [Object.prototype], which is where the code
    falls short of C6. *)
Theorem all_required_binds_positionally (names : list string) (args : list value) :
  Forall (λ s, charAt s 0 ≠ "?"%string) names →
  ordinary_names names →
  NoDup names →
  length names ≤ length args →
  resolveArgs args (name_spec <$> names) = Normal (list_to_map (zip names args))
  ∧ (∀ i s, names !! i = Some s →
       (list_to_map (zip names args) : obj) !! s = args !! i)
  ∧ dom (list_to_map (zip names args) : obj) = list_to_set names
  ∧ (list_to_map (zip names args) : obj)
    = list_to_map (zip names (take (length names) args)).
Proof.
  intros Hreq _ Hnd Hlen. split; [|split; [|split]].
  - unfold resolveArgs. rewrite prepared_in_order.
    + rewrite loop_all_required by (done || lia).
      by rewrite drop_0, (right_id_L ∅ (∪)).
    + destruct Hreq as [|s names Hs _]; [by right|left].
      simpl. by destruct (String.eqb_spec (charAt s 0) "?").
  - intros i s Hi.
    destruct (args !! i) as [a|] eqn:Ha.
    + apply elem_of_list_to_map; [by rewrite fst_zip|].
      apply list_elem_of_lookup. exists i.
      apply lookup_zip_with_Some. eauto.
    + apply lookup_ge_None in Ha. apply lookup_lt_Some in Hi. lia.
  - rewrite dom_list_to_map_L. by rewrite fst_zip.
  - f_equal. symmetry. apply zip_with_take_r.
Qed.

Lemma all_required_binds_positionally_witness :
  resolveArgs [VNum 1; VNum 2; VNum 3] (name_spec <$> ["a"; "b"]%string)
  = Normal (list_to_map (zip ["a"; "b"]%string [VNum 1; VNum 2; VNum 3])).
Proof.
  apply (all_required_binds_positionally ["a"; "b"]%string [VNum 1; VNum 2; VNum 3]).
  - repeat constructor; discriminate.
  - apply (bool_decide_unpack (ordinary_names ["a"; "b"]%string)). reflexivity.
  - apply (bool_decide_unpack (NoDup ["a"; "b"]%string)). by vm_compute.
  - simpl. lia.
Defined.

(** An entry outside the documented formats does raise: [(5).charAt] is not
    a function. *)
Example number_spec_throws :
  resolveArgs [VNum 1] [SVal (VNum 5)] = Throw TypeError.
Proof. reflexivity. Qed.

(** C7: with an empty spec list the resolver returns the empty mapping for
    every argument list, and for spec lists of documented entries (strings
    and check functions) it returns a mapping, never an exception, whatever
    the two lengths are. *)
Theorem resolveArgs_raises_no_error :
  (∀ args, resolveArgs args [] = Normal ∅)
  ∧ (∀ args specs,
       Forall (λ sp, well_formed_spec sp = true) specs →
       ∃ m, resolveArgs args specs = Normal m).
Proof.
  split; [done|].
  intros args specs Hwf. unfold resolveArgs.
  destruct (prepared args specs) as [preparedSpecs preparedArgs] eqn:Hp.
  apply loop_well_formed.
  unfold prepared in Hp. case_match; injection Hp as <- <-; [done|].
  by apply prepare_Forall.
Qed.

Lemma resolveArgs_raises_no_error_witness :
  ∃ m, resolveArgs [VNum 1]
         [name_spec "?a"; SFun number_named_x; name_spec "b"; name_spec "c"]
       = Normal m.
Proof.
  apply (proj2 resolveArgs_raises_no_error). repeat constructor.
Defined.



(** ** Reasoning about store computations *)

Section wp_rules.
Context {A B : Type}.
Implicit Types (σ : Heap.store).

Lemma wp_bind (m : Heap.M A) (k : A → Heap.M B) σ Q :
  Heap.wp m σ (λ c σ', match c with
                       | Normal a => Heap.wp (k a) σ' Q
                       | Throw e => Q (Throw e) σ'
                       end) →
  Heap.wp (m ≫= k) σ Q.
Proof.
  intros (c & σ' & Hm & Hk). unfold Heap.wp, mbind, Heap.M_bind. rewrite Hm.
  destruct c as [a|e]; [done|eauto].
Qed.

Lemma wp_ret (a : A) σ (Q : completion A → Heap.store → Prop) :
  Q (Normal a) σ → Heap.wp (mret a) σ Q.
Proof. intros H. by exists (Normal a), σ. Qed.

Lemma wp_lift (c : completion A) σ (Q : completion A → Heap.store → Prop) :
  Q c σ → Heap.wp (Heap.lift c) σ Q.
Proof. intros H. by exists c, σ. Qed.

Lemma wp_mono (m : Heap.M A) σ (Q Q' : completion A → Heap.store → Prop) :
  Heap.wp m σ Q → (∀ c σ', Q c σ' → Q' c σ') → Heap.wp m σ Q'.
Proof. intros (c & σ' & Hm & HQ) H. exists c, σ'. eauto. Qed.

End wp_rules.

Section wp_primitives.
Implicit Types (σ : Heap.store) (l : Heap.loc) (c : Heap.cell).

Lemma wp_load l σ c (Q : completion Heap.cell → Heap.store → Prop) :
  σ !! l = Some c → Q (Normal c) σ → Heap.wp (Heap.load l) σ Q.
Proof. intros Hl H. exists (Normal c), σ. unfold Heap.load. by rewrite Hl. Qed.

Lemma wp_store_cell l c σ (Q : completion unit → Heap.store → Prop) :
  Q (Normal tt) (<[l := c]> σ) → Heap.wp (Heap.store_cell l c) σ Q.
Proof. intros H. by exists (Normal tt), (<[l := c]> σ). Qed.

Lemma wp_alloc c σ (Q : completion Heap.loc → Heap.store → Prop) :
  (∀ l, σ !! l = None → Q (Normal l) (<[l := c]> σ)) →
  Heap.wp (Heap.alloc c) σ Q.
Proof.
  intros H. exists (Normal (fresh (dom σ))), (<[fresh (dom σ) := c]> σ).
  split; [done|]. apply H. apply not_elem_of_dom, is_fresh.
Qed.

Lemma wp_arr_slice a start end_ σ c c' (Q : completion Heap.loc → Heap.store → Prop) :
  σ !! a = Some c →
  Heap.cell_slice c start end_ = Some c' →
  (∀ l, σ !! l = None → Q (Normal l) (<[l := c']> σ)) →
  Heap.wp (Heap.arr_slice a start end_) σ Q.
Proof.
  intros Ha Hc H. apply wp_bind, (wp_load _ _ _ _ Ha). rewrite Hc.
  by apply wp_alloc.
Qed.

Lemma wp_arr_reverse a σ c c' (Q : completion Heap.loc → Heap.store → Prop) :
  σ !! a = Some c →
  Heap.cell_reverse c = Some c' →
  Q (Normal a) (<[a := c']> σ) →
  Heap.wp (Heap.arr_reverse a) σ Q.
Proof.
  intros Ha Hc H. apply wp_bind, (wp_load _ _ _ _ Ha). rewrite Hc.
  apply wp_bind, wp_store_cell. by apply wp_ret.
Qed.

Lemma wp_arr_concat a b σ ca cb c (Q : completion Heap.loc → Heap.store → Prop) :
  σ !! a = Some ca →
  σ !! b = Some cb →
  Heap.cell_concat ca cb = Some c →
  (∀ l, σ !! l = None → Q (Normal l) (<[l := c]> σ)) →
  Heap.wp (Heap.arr_concat a b) σ Q.
Proof.
  intros Ha Hb Hc H. apply wp_bind, (wp_load _ _ _ _ Ha).
  apply wp_bind, (wp_load _ _ _ _ Hb). rewrite Hc. by apply wp_alloc.
Qed.

Lemma wp_arr_length a σ c n (Q : completion nat → Heap.store → Prop) :
  σ !! a = Some c →
  Heap.cell_length c = Some n →
  Q (Normal n) σ →
  Heap.wp (Heap.arr_length a) σ Q.
Proof.
  intros Ha Hc H. apply wp_bind, (wp_load _ _ _ _ Ha). rewrite Hc.
  by apply wp_ret.
Qed.

Lemma wp_isArray a σ b xs (Q : completion bool → Heap.store → Prop) :
  σ !! a = Some (Heap.CArgs b xs) →
  Q (Normal b) σ →
  Heap.wp (Heap.isArray a) σ Q.
Proof. intros Ha H. apply wp_bind, (wp_load _ _ _ _ Ha). by apply wp_ret. Qed.

Lemma wp_read_specs a σ ss (Q : completion (list spec) → Heap.store → Prop) :
  σ !! a = Some (Heap.CSpecs ss) →
  Q (Normal ss) σ →
  Heap.wp (Heap.read_specs a) σ Q.
Proof. intros Ha H. apply wp_bind, (wp_load _ _ _ _ Ha). by apply wp_ret. Qed.

Lemma wp_read_args a σ b xs (Q : completion (list value) → Heap.store → Prop) :
  σ !! a = Some (Heap.CArgs b xs) →
  Q (Normal xs) σ →
  Heap.wp (Heap.read_args a) σ Q.
Proof. intros Ha H. apply wp_bind, (wp_load _ _ _ _ Ha). by apply wp_ret. Qed.

Lemma wp_obj_set o k v σ m (Q : completion unit → Heap.store → Prop) :
  σ !! o = Some (Heap.CObj m) →
  Q (Normal tt) (<[o := Heap.CObj (<[k := v]> m)]> σ) →
  Heap.wp (Heap.obj_set o k v) σ Q.
Proof.
  intros Ho H. apply wp_bind, (wp_load _ _ _ _ Ho). by apply wp_store_cell.
Qed.

End wp_primitives.

(** ** The store version against the list version *)

Section heap_refinement.
Implicit Types (σ : Heap.store) (l : Heap.loc) (c : Heap.cell).

(** [prepare] leaves every cell of the store it started from alone: the
    in-place [reverse] hits the array [slice] has just allocated. *)
Lemma wp_prepare arr splitAt σ c tail rtail front whole
    (Q : completion Heap.loc → Heap.store → Prop) :
  σ !! arr = Some c →
  Heap.cell_slice c splitAt None = Some tail →
  Heap.cell_reverse tail = Some rtail →
  Heap.cell_slice c 0 (Some splitAt) = Some front →
  Heap.cell_concat rtail front = Some whole →
  (∀ σ' l, σ ⊆ σ' → σ !! l = None → σ' !! l = Some whole → Q (Normal l) σ') →
  Heap.wp (Heap.prepare arr splitAt) σ Q.
Proof.
  intros Harr Htail Hrev Hfront Hcat HQ. unfold Heap.prepare.
  apply wp_bind. eapply wp_arr_slice; [done..|]. intros l1 Hl1.
  apply wp_bind. eapply wp_arr_reverse; [apply lookup_insert_eq|done|].
  rewrite insert_insert_eq.
  assert (l1 ≠ arr) as Hne by congruence.
  apply wp_bind. eapply wp_arr_slice; [by rewrite lookup_insert_ne|done|].
  intros l2 Hl2. apply lookup_insert_None in Hl2 as [Hl2 Hne2].
  eapply wp_arr_concat.
  - rewrite lookup_insert_ne by done. apply lookup_insert_eq.
  - apply lookup_insert_eq.
  - done.
  - intros l3 Hl3.
    apply lookup_insert_None in Hl3 as [Hl3 Hne3].
    apply lookup_insert_None in Hl3 as [Hl3 Hne3'].
    apply HQ.
    + by repeat apply insert_subseteq_r.
    + done.
    + apply lookup_insert_eq.
Qed.

Lemma loop_guard_false ss xs specIndex argIndex (m : obj) :
  (specIndex <? length ss) && (argIndex <? length xs) = false →
  Util.loop (drop specIndex ss) xs argIndex m = Normal m.
Proof.
  intros Hg. destruct (ss !! specIndex) as [sp|] eqn:Hsp.
  - rewrite (drop_S _ _ _ Hsp). cbn [Util.loop].
    apply lookup_lt_Some, Nat.ltb_lt in Hsp. rewrite Hsp in Hg.
    apply Nat.ltb_ge, lookup_ge_None in Hg. by rewrite Hg.
  - apply lookup_ge_None in Hsp. by rewrite drop_ge.
Qed.

(** The loop over the store computes what the list version computes and
    writes nothing but the result object. *)
Lemma wp_loop fuel preparedSpecs preparedArgs result σ ss b xs m
    specIndex argIndex (Q : completion unit → Heap.store → Prop) :
  σ !! preparedSpecs = Some (Heap.CSpecs ss) →
  σ !! preparedArgs = Some (Heap.CArgs b xs) →
  σ !! result = Some (Heap.CObj m) →
  length ss - specIndex ≤ fuel →
  match Util.loop (drop specIndex ss) xs argIndex m with
  | Normal m' => Q (Normal tt) (<[result := Heap.CObj m']> σ)
  | Throw e => ∀ m', Q (Throw e) (<[result := Heap.CObj m']> σ)
  end →
  Heap.wp (Heap.loop fuel preparedSpecs preparedArgs result specIndex argIndex) σ Q.
Proof.
  revert σ m specIndex argIndex.
  induction fuel as [|fuel IH]; intros σ m specIndex argIndex HS HA HR Hfuel HQ.
  all: assert (result ≠ preparedSpecs ∧ result ≠ preparedArgs) as [HneS HneA]
         by (split; congruence).
  all: cbn [Heap.loop].
  all: apply wp_bind; eapply wp_arr_length; [done..|].
  all: apply wp_bind; eapply wp_arr_length; [done..|].
  all: destruct ((specIndex <? length ss) && (argIndex <? length xs)) eqn:Hg.
  all: try (apply wp_ret; rewrite (loop_guard_false _ _ _ _ _ Hg) in HQ;
            by rewrite insert_id in HQ).
  all: apply andb_true_iff in Hg as [Hsi%Nat.ltb_lt Hai%Nat.ltb_lt].
  { lia. }
  destruct (lookup_lt_is_Some_2 ss specIndex Hsi) as [sp Hsp].
  destruct (lookup_lt_is_Some_2 xs argIndex Hai) as [arg Harg].
  rewrite (drop_S _ _ _ Hsp) in HQ. cbn [Util.loop] in HQ.
  rewrite Harg in HQ. unfold body in HQ.
  apply wp_bind. eapply wp_read_specs; [done|].
  apply wp_bind. eapply wp_read_args; [done|].
  unfold spec_at. rewrite Hsp, Harg. cbn [default from_option id].
  apply wp_bind, wp_lift.
  destruct (binding_name sp arg) as [[k|]|e]; cbn in HQ.
  - apply wp_bind. eapply wp_obj_set; [done|].
    eapply IH.
    + by rewrite lookup_insert_ne.
    + by rewrite lookup_insert_ne.
    + apply lookup_insert_eq.
    + lia.
    + destruct (Util.loop _ _ _ _); [|intros m'];
        rewrite insert_insert_eq; [done|apply HQ].
  - by eapply IH; [done..|lia|].
  - specialize (HQ m). by rewrite insert_id in HQ.
Qed.

Lemma slice_whole {A} (arr : list A) : slice arr 0 None = arr.
Proof. rewrite slice_from. by rewrite relative_index_in_range by lia. Qed.

(** The last three statements of [resolveArgs], once both arrays are
    prepared. *)
Lemma wp_loop_and_return preparedSpecs preparedArgs result σ0 σ ss b xs expected
    (Q : completion Heap.loc → Heap.store → Prop) :
  σ0 ⊆ σ →
  σ0 !! result = None →
  σ !! result = Some (Heap.CObj ∅) →
  σ !! preparedSpecs = Some (Heap.CSpecs ss) →
  σ !! preparedArgs = Some (Heap.CArgs b xs) →
  expected = Util.loop ss xs 0 ∅ →
  (∀ σ', σ0 ⊆ σ' →
     match expected with
     | Normal m => σ' !! result = Some (Heap.CObj m) → Q (Normal result) σ'
     | Throw e => Q (Throw e) σ'
     end) →
  Heap.wp (fuel ← Heap.arr_length preparedSpecs;
           Heap.loop fuel preparedSpecs preparedArgs result 0 0;;
           mret result) σ Q.
Proof.
  intros Hsub Hfresh HR HS HA -> HQ.
  assert (∀ m', σ0 ⊆ <[result := Heap.CObj m']> σ) as Hsub'.
  { intros m'. by apply insert_subseteq_r. }
  apply wp_bind. eapply wp_arr_length; [done..|].
  apply wp_bind. eapply wp_loop; [done..|simpl; lia|].
  rewrite drop_0.
  destruct (Util.loop ss xs 0 ∅) as [m|e].
  - apply wp_ret. apply HQ; [done|]. apply lookup_insert_eq.
  - intros m'. by apply HQ.
Qed.

(** [resolveArgs] over the store: it completes as the list version does,
    extends the store it started from without changing any of its cells, and
    returns a location that store did not use, holding the mapping the list
    version computes. *)
Lemma wp_resolveArgs args specs σ b xs ss
    (Q : completion Heap.loc → Heap.store → Prop) :
  σ !! args = Some (Heap.CArgs b xs) →
  σ !! specs = Some (Heap.CSpecs ss) →
  (∀ σ' result, σ ⊆ σ' → σ !! result = None →
     match Util.resolveArgs xs ss with
     | Normal m => σ' !! result = Some (Heap.CObj m) → Q (Normal result) σ'
     | Throw e => Q (Throw e) σ'
     end) →
  Heap.wp (Heap.resolveArgs args specs) σ Q.
Proof.
  intros HA HS HQ. unfold Heap.resolveArgs.
  apply wp_bind, wp_alloc. intros result Hfresh.
  assert (result ≠ args ∧ result ≠ specs) as [HneA HneS] by (split; congruence).
  assert (σ ⊆ <[result := Heap.CObj ∅]> σ) as Hsub0 by by apply insert_subseteq.
  apply wp_bind. eapply wp_read_specs; [by rewrite lookup_insert_ne|].
  apply wp_bind.
  unfold Util.resolveArgs, prepared in HQ.
  destruct (isRequired (spec_at ss 0)
            || negb (truthy_index (findTurningPoint ss isRequired))).
  - apply wp_ret.
    eapply (wp_loop_and_return specs args result σ); [done|done|..|done|].
    + apply lookup_insert_eq.
    + by rewrite lookup_insert_ne.
    + by rewrite lookup_insert_ne.
    + intros σ' Hsub. by apply HQ.
  - set (tp := Z.of_nat (default 0 (findTurningPoint ss isRequired))) in *.
    apply wp_bind. eapply wp_isArray; [by rewrite lookup_insert_ne|].
    apply wp_bind.
    (* [effectiveArgs]: the array itself, or a fresh copy of an array-like. *)
    assert (∀ Q' : completion Heap.loc → Heap.store → Prop,
      (∀ σ1 ea b', <[result := Heap.CObj ∅]> σ ⊆ σ1 →
         σ1 !! ea = Some (Heap.CArgs b' xs) → Q' (Normal ea) σ1) →
      Heap.wp (if b then mret args else Heap.arr_slice args 0 None)
        (<[result := Heap.CObj ∅]> σ) Q') as Heff.
    { intros Q' HQ'. destruct b.
      - apply wp_ret. apply HQ' with true; [done|by rewrite lookup_insert_ne].
      - eapply wp_arr_slice; [by rewrite lookup_insert_ne|done|].
        intros ea Hea. apply HQ' with true; [by apply insert_subseteq|].
        rewrite slice_whole. apply lookup_insert_eq. }
    apply Heff. clear Heff. intros σ1 ea b' Hsub1 Hea.
    assert (σ1 !! specs = Some (Heap.CSpecs ss)) as HS1.
    { eapply lookup_weaken; [|done]. by rewrite lookup_insert_ne. }
    apply wp_bind.
    eapply (wp_prepare specs tp σ1 (Heap.CSpecs ss)); [done..|].
    intros σ2 preparedSpecs Hsub2 _ HpS.
    apply wp_bind. eapply (wp_arr_length ea σ2); [by eapply lookup_weaken|done|].
    assert (σ2 !! specs = Some (Heap.CSpecs ss)) as HS2
      by by eapply lookup_weaken.
    apply wp_bind. eapply (wp_arr_length specs σ2); [done..|].
    apply wp_bind.
    eapply (wp_prepare ea _ σ2 (Heap.CArgs b' xs)); [by eapply lookup_weaken|done..|].
    intros σ3 preparedArgs Hsub3 _ HpA.
    apply wp_ret.
    eapply (wp_loop_and_return preparedSpecs preparedArgs result σ σ3);
      [|done| | | |done|].
    + by do 3 (etrans; [|done]).
    + eapply lookup_weaken; [apply lookup_insert_eq|]. by do 2 (etrans; [|done]).
    + by eapply lookup_weaken.
    + done.
    + intros σ' Hsub. by apply HQ.
Qed.

(** The same statement about the function itself. *)
Lemma resolveArgs_store_run args specs σ b xs ss :
  σ !! args = Some (Heap.CArgs b xs) →
  σ !! specs = Some (Heap.CSpecs ss) →
  ∃ out σ', Heap.resolveArgs args specs σ = Some (out, σ')
    ∧ σ ⊆ σ'
    ∧ match out with
      | Normal result =>
          σ !! result = None
          ∧ ∃ m, Util.resolveArgs xs ss = Normal m
                 ∧ σ' !! result = Some (Heap.CObj m)
      | Throw e => Util.resolveArgs xs ss = Throw e
      end.
Proof.
  intros HA HS.
  destruct (wp_resolveArgs args specs σ b xs ss
    (λ out σ', σ ⊆ σ'
       ∧ match out with
         | Normal result =>
             σ !! result = None
             ∧ ∃ m, Util.resolveArgs xs ss = Normal m
                    ∧ σ' !! result = Some (Heap.CObj m)
         | Throw e => Util.resolveArgs xs ss = Throw e
         end) HA HS) as (out & σ' & Hrun & H); [|eauto].
  intros σ' result Hsub Hfresh.
  destruct (Util.resolveArgs xs ss) as [m|e]; [|done].
  intros Hm. eauto.
Qed.

End heap_refinement.

(** ** Effects of a call *)

(** C9: a call of [resolveArgs] completes and leaves the [args] and [specs]
    arrays element for element as they were, together with every other cell
    of the store it started from (the rotation reverses freshly allocated
    copies); the mapping it returns is at a location that store did not
    use. *)
Theorem resolveArgs_preserves_inputs (σ : Heap.store) (args specs : Heap.loc)
    (b : bool) (xs : list value) (ss : list spec) :
  σ !! args = Some (Heap.CArgs b xs) →
  σ !! specs = Some (Heap.CSpecs ss) →
  ∃ out σ', Heap.resolveArgs args specs σ = Some (out, σ')
    ∧ σ' !! args = Some (Heap.CArgs b xs)
    ∧ σ' !! specs = Some (Heap.CSpecs ss)
    ∧ (∀ l c, σ !! l = Some c → σ' !! l = Some c)
    ∧ ∀ result, out = Normal result →
        σ !! result = None ∧ ∃ m, σ' !! result = Some (Heap.CObj m).
Proof.
  intros HA HS.
  destruct (resolveArgs_store_run args specs σ b xs ss HA HS)
    as (out & σ' & Hrun & Hsub & Hout).
  exists out, σ'. split; [done|].
  split; [by eapply lookup_weaken|]. split; [by eapply lookup_weaken|].
  split; [intros l c Hl; by eapply lookup_weaken|].
  intros result ->. destruct Hout as (Hfresh & m & _ & Hm). eauto.
Qed.

Lemma resolveArgs_preserves_inputs_witness :
  ∃ out σ', Heap.resolveArgs 0 1 example_store = Some (out, σ')
    ∧ σ' !! 0 = Some (Heap.CArgs false [VNum 1; VNum 2; VNum 3])
    ∧ σ' !! 1 = Some (Heap.CSpecs [name_spec "?a"; name_spec "b"; name_spec "c"])
    ∧ (∀ l c, example_store !! l = Some c → σ' !! l = Some c)
    ∧ ∀ result, out = Normal result →
        example_store !! result = None
        ∧ ∃ m, σ' !! result = Some (Heap.CObj m).
Proof.
  apply (resolveArgs_preserves_inputs example_store 0 1 false
           [VNum 1; VNum 2; VNum 3]
           [name_spec "?a"; name_spec "b"; name_spec "c"]);
    reflexivity.
Defined.

(** C8: two calls of [resolveArgs] on the same [args] and [specs], the
    second in the store the first one left, complete alike; when they
    return, they return two different objects holding the same mapping (the
    one the list version computes). Predicate entries are functions of their
    argument alone. *)
Theorem resolveArgs_twice_equal (σ : Heap.store) (args specs : Heap.loc)
    (b : bool) (xs : list value) (ss : list spec) :
  σ !! args = Some (Heap.CArgs b xs) →
  σ !! specs = Some (Heap.CSpecs ss) →
  ∃ out1 σ1 out2 σ2,
    Heap.resolveArgs args specs σ = Some (out1, σ1)
    ∧ Heap.resolveArgs args specs σ1 = Some (out2, σ2)
    ∧ match out1, out2 with
      | Normal r1, Normal r2 =>
          r1 ≠ r2
          ∧ ∃ m, σ2 !! r1 = Some (Heap.CObj m)
                 ∧ σ2 !! r2 = Some (Heap.CObj m)
                 ∧ Util.resolveArgs xs ss = Normal m
      | Throw e1, Throw e2 => e1 = e2
      | _, _ => False
      end.
Proof.
  intros HA HS.
  destruct (resolveArgs_store_run args specs σ b xs ss HA HS)
    as (out1 & σ1 & Hrun1 & Hsub1 & Hout1).
  assert (σ1 !! args = Some (Heap.CArgs b xs)) as HA1 by by eapply lookup_weaken.
  assert (σ1 !! specs = Some (Heap.CSpecs ss)) as HS1 by by eapply lookup_weaken.
  destruct (resolveArgs_store_run args specs σ1 b xs ss HA1 HS1)
    as (out2 & σ2 & Hrun2 & Hsub2 & Hout2).
  exists out1, σ1, out2, σ2. split; [done|]. split; [done|].
  destruct out1 as [r1|e1], out2 as [r2|e2].
  - destruct Hout1 as (_ & m1 & Hm1 & Hr1), Hout2 as (Hfresh2 & m2 & Hm2 & Hr2).
    assert (m2 = m1) as -> by congruence.
    split; [congruence|]. exists m1.
    split; [by eapply lookup_weaken|done].
  - destruct Hout1 as (_ & m1 & Hm1 & _). congruence.
  - destruct Hout2 as (_ & m2 & Hm2 & _). congruence.
  - congruence.
Qed.

Lemma resolveArgs_twice_equal_witness :
  ∃ out1 σ1 out2 σ2,
    Heap.resolveArgs 0 1 example_store = Some (out1, σ1)
    ∧ Heap.resolveArgs 0 1 σ1 = Some (out2, σ2)
    ∧ match out1, out2 with
      | Normal r1, Normal r2 =>
          r1 ≠ r2
          ∧ ∃ m, σ2 !! r1 = Some (Heap.CObj m)
                 ∧ σ2 !! r2 = Some (Heap.CObj m)
                 ∧ Util.resolveArgs [VNum 1; VNum 2; VNum 3]
                     [name_spec "?a"; name_spec "b"; name_spec "c"] = Normal m
      | Throw e1, Throw e2 => e1 = e2
      | _, _ => False
      end.
Proof.
  apply (resolveArgs_twice_equal example_store 0 1 false
           [VNum 1; VNum 2; VNum 3]
           [name_spec "?a"; name_spec "b"; name_spec "c"]);
    reflexivity.
Defined.

(** ** Further properties of the helpers of [resolveArgs] *)

Lemma findTurningPoint_from_None pred first i rest :
  findTurningPoint_from pred first i rest = None ↔
  ∀ j x, rest !! j = Some x → pred x = first.
Proof.
  revert i. induction rest as [|x rest IH]; intros i; simpl.
  - split; [intros _ j x Hj; by rewrite lookup_nil in Hj|done].
  - destruct (eqb (pred x) first) eqn:E; simpl.
    + apply eqb_prop in E. rewrite IH. split.
      * intros H [|j] y; simpl; [congruence|apply H].
      * intros H j y Hj. apply (H (S j)). done.
    + split; [done|]. intros H. specialize (H 0 x eq_refl).
      rewrite H, eqb_reflx in E. discriminate.
Qed.

Lemma findTurningPoint_None arr pred :
  findTurningPoint arr pred = None ↔
  ∀ i, i < length arr → pred (spec_at arr i) = pred (spec_at arr 0).
Proof.
  unfold findTurningPoint. rewrite findTurningPoint_from_None. split.
  - intros H [|i] Hi; [done|].
    destruct (lookup_lt_is_Some_2 arr (S i) Hi) as [x Hx].
    unfold spec_at at 1. rewrite Hx. simpl. apply (H i). by rewrite lookup_drop.
  - intros H j x Hj. rewrite lookup_drop in Hj.
    specialize (H (1 + j) (lookup_lt_Some _ _ _ Hj)).
    unfold spec_at at 1 in H. by rewrite Hj in H.
Qed.

Lemma findTurningPoint_Some_iff arr pred t :
  findTurningPoint arr pred = Some t ↔
  1 ≤ t < length arr
  ∧ pred (spec_at arr t) ≠ pred (spec_at arr 0)
  ∧ ∀ i, i < t → pred (spec_at arr i) = pred (spec_at arr 0).
Proof.
  split; [apply findTurningPoint_Some|].
  intros (Hr & Hne & Hlt).
  destruct (findTurningPoint arr pred) as [t'|] eqn:Ht'.
  - apply findTurningPoint_Some in Ht' as (Hr' & Hne' & Hlt').
    f_equal. destruct (Nat.lt_trichotomy t' t) as [H|[H|H]]; [|done|].
    + by specialize (Hlt t' H).
    + by specialize (Hlt' t H).
  - rewrite findTurningPoint_None in Ht'. destruct Hne. apply Ht'. lia.
Qed.

(** X1: [findTurningPoint] returns [t] exactly when [t] is the first index
    whose classification by [pred] differs from the classification of index
    0; such an index is never 0 and lies inside the array. *)
Theorem turning_point_is_first_change (arr : list spec) (pred : spec → bool) (t : nat) :
  findTurningPoint arr pred = Some t ↔
  1 ≤ t < length arr
  ∧ pred (spec_at arr t) ≠ pred (spec_at arr 0)
  ∧ ∀ i, i < t → pred (spec_at arr i) = pred (spec_at arr 0).
Proof. apply findTurningPoint_Some_iff. Qed.

(** X2: [findTurningPoint] returns [null] exactly when every element of the
    array is classified like the element at index 0 (in particular on the
    empty and the one-element array). *)
Theorem no_turning_point_iff_uniform (arr : list spec) (pred : spec → bool) :
  (findTurningPoint arr pred = None ↔
   ∀ i, i < length arr → pred (spec_at arr i) = pred (spec_at arr 0))
  ∧ (length arr ≤ 1 → findTurningPoint arr pred = None).
Proof.
  split; [apply findTurningPoint_None|].
  intros Hlen. apply findTurningPoint_None. intros i Hi.
  by replace i with 0 by lia.
Qed.

Lemma no_turning_point_iff_uniform_witness :
  findTurningPoint [name_spec "a"] isRequired = None.
Proof.
  apply (proj2 (no_turning_point_iff_uniform [name_spec "a"] isRequired)).
  simpl. lia.
Defined.

Lemma prepare_Permutation {A} (arr : list A) (k : Z) : prepare arr k ≡ₚ arr.
Proof.
  rewrite prepare_unfold, reverse_Permutation, (comm (++)).
  by rewrite take_drop.
Qed.

(** X3: for every split index, negative and out-of-range ones included,
    [prepare] returns a permutation of its input of the same length: no
    element is lost or repeated. *)
Theorem prepare_permutes (arr : list value) (splitAt : Z) :
  prepare arr splitAt ≡ₚ arr ∧ length (prepare arr splitAt) = length arr.
Proof. split; [apply prepare_Permutation|apply prepare_length]. Qed.

(** X4: the split indices at the bounds. [prepare] returns the array
    unchanged when [splitAt] is at or beyond its length, and the whole array
    reversed when [splitAt] is 0 or at or below minus its length. *)
Theorem prepare_at_bounds (arr : list value) (splitAt : Z) :
  ((Z.of_nat (length arr) ≤ splitAt)%Z → prepare arr splitAt = arr)
  ∧ ((splitAt = 0 ∨ splitAt ≤ - Z.of_nat (length arr))%Z →
     prepare arr splitAt = reverse arr).
Proof.
  rewrite prepare_unfold. unfold relative_index. split; intros H.
  - case_match; [lia|]. rewrite Z.min_r, Nat2Z.id by lia.
    by rewrite drop_all, take_ge.
  - replace (if (splitAt <? 0)%Z then _ else _) with 0.
    + by rewrite drop_0, take_0, app_nil_r.
    + case_match; lia.
Qed.

Lemma prepare_at_bounds_witness :
  prepare [VNum 1; VNum 2] 5 = [VNum 1; VNum 2].
Proof.
  apply (proj1 (prepare_at_bounds [VNum 1; VNum 2] 5)). simpl. lia.
Defined.

(** ** Further properties of [resolveArgs] *)

Lemma prepared_Permutation args specs :
  (prepared args specs).1 ≡ₚ specs ∧ (prepared args specs).2 ≡ₚ args.
Proof.
  unfold prepared. case_match; simpl; [done|].
  split; apply prepare_Permutation.
Qed.

(** X5: with no arguments the result is the empty mapping for every spec
    list, malformed ones included: the loop body never runs. *)
Theorem resolveArgs_without_arguments (specs : list spec) :
  resolveArgs [] specs = Normal ∅.
Proof.
  unfold resolveArgs.
  pose proof (prepared_lengths [] specs) as [_ Hlen].
  destruct (prepared [] specs) as [preparedSpecs preparedArgs]. simpl in Hlen.
  apply nil_length_inv in Hlen as ->. by destruct preparedSpecs.
Qed.

Lemma loop_provenance rest preparedArgs argIndex (result m : obj) :
  loop rest preparedArgs argIndex result = Normal m →
  ∀ k v, m !! k = Some v →
    result !! k = Some v
    ∨ (v ∈ preparedArgs ∧ ∃ sp, sp ∈ rest ∧ binding_name sp v = Normal (Some k)).
Proof.
  revert argIndex result.
  induction rest as [|sp rest IH]; intros argIndex result; simpl.
  - intros [= <-]. auto.
  - destruct (preparedArgs !! argIndex) as [arg|] eqn:Harg; [|intros [= <-]; auto].
    unfold body. destruct (binding_name sp arg) as [[key|]|e] eqn:Hb; simpl; [| |done].
    + intros Hl k v Hk. destruct (IH _ _ Hl k v Hk) as [Hr|(Hv & sp' & Hsp' & Hb')].
      * destruct (decide (key = k)) as [->|Hne].
        -- rewrite lookup_insert_eq in Hr. injection Hr as <-. right.
           split; [by eapply list_elem_of_lookup_2|].
           exists sp. split; [left|done].
        -- rewrite lookup_insert_ne in Hr by done. by left.
      * right. split; [done|]. exists sp'. split; [by right|done].
    + intros Hl k v Hk. destruct (IH _ _ Hl k v Hk) as [Hr|(Hv & sp' & Hsp' & Hb')].
      * by left.
      * right. split; [done|]. exists sp'. split; [by right|done].
Qed.

(** X6: the resolver invents nothing. Every binding of the returned mapping
    holds one of the arguments, under the name that one of the spec entries
    gives to that very argument. *)
Theorem resolveArgs_bindings_come_from_inputs
    (args : list value) (specs : list spec) (m : obj) (k : string) (v : value) :
  resolveArgs args specs = Normal m →
  m !! k = Some v →
  v ∈ args ∧ ∃ sp, sp ∈ specs ∧ binding_name sp v = Normal (Some k).
Proof.
  unfold resolveArgs. intros Hl Hk.
  pose proof (prepared_Permutation args specs) as [HpS HpA].
  destruct (prepared args specs) as [preparedSpecs preparedArgs]. simpl in *.
  destruct (loop_provenance _ _ _ _ _ Hl k v Hk) as [Hr|(Hv & sp & Hsp & Hb)].
  - by rewrite lookup_empty in Hr.
  - split; [by rewrite <- HpA|]. exists sp. split; [by rewrite <- HpS|done].
Qed.

Lemma resolveArgs_bindings_come_from_inputs_witness :
  VNum 2 ∈ rotation_test_args
  ∧ ∃ sp, sp ∈ rotation_test_specs
          ∧ binding_name sp (VNum 2) = Normal (Some "c"%string).
Proof.
  apply (resolveArgs_bindings_come_from_inputs rotation_test_args rotation_test_specs
           {[ "c"%string := VNum 2; "a"%string := VNum 1 ]});
    reflexivity.
Defined.

(** *** Lists of plain names *)

Lemma binding_name_required s arg :
  charAt s 0 ≠ "?"%string → binding_name (name_spec s) arg = Normal (Some s).
Proof.
  intros Hs. unfold binding_name. simpl.
  by destruct (String.eqb_spec (charAt s 0) "?").
Qed.

Lemma binding_name_optional x arg :
  x ≠ EmptyString → binding_name (optional_spec x) arg = Normal (Some x).
Proof.
  intros Hx. unfold binding_name, optional_spec. simpl.
  change ("" +:+ x) with x. by destruct (String.eqb_spec x "").
Qed.

Lemma isRequired_name_spec s :
  charAt s 0 ≠ "?"%string → isRequired (name_spec s) = true.
Proof. intros Hs. simpl. by destruct (String.eqb_spec (charAt s 0) "?"). Qed.

Lemma isRequired_optional_spec x : isRequired (optional_spec x) = false.
Proof. done. Qed.

(** A run of entries each of which consumes its argument under a fixed
    name: the entries are paired with their names. *)
Lemma loop_consuming (entries : list (spec * string)) args argIndex (result : obj) :
  Forall (λ e, ∀ arg, binding_name e.1 arg = Normal (Some e.2)) entries →
  NoDup entries.*2 →
  loop entries.*1 args argIndex result
  = Normal (list_to_map (zip entries.*2 (drop argIndex args)) ∪ result).
Proof.
  intros Hall. revert argIndex result.
  induction Hall as [|[sp k] entries Hk _ IH]; intros argIndex result Hnd; simpl.
  - by rewrite (left_id_L ∅ (∪)).
  - simpl in Hk. apply NoDup_cons in Hnd as [Hnotin Hnd].
    destruct (args !! argIndex) as [arg|] eqn:Harg.
    + unfold body. rewrite Hk. simpl. rewrite IH by done.
      rewrite (drop_S _ _ _ Harg). simpl.
      rewrite <- insert_union_r; [by rewrite insert_union_l|].
      apply not_elem_of_list_to_map_1. intros Hin. apply Hnotin.
      apply list_elem_of_fmap in Hin as ([k' v] & -> & Hin).
      by apply elem_of_zip_l in Hin.
    + apply lookup_ge_None in Harg. rewrite drop_ge by done.
      destruct entries.*2; simpl; by rewrite (left_id_L ∅ (∪)).
Qed.

Lemma required_entries reqs :
  Forall (λ s, charAt s 0 ≠ "?"%string) reqs →
  (required_entry <$> reqs).*1 = name_spec <$> reqs
  ∧ (required_entry <$> reqs).*2 = reqs
  ∧ Forall (λ e, ∀ arg, binding_name e.1 arg = Normal (Some e.2))
      (required_entry <$> reqs).
Proof.
  intros H. rewrite <- !list_fmap_compose. split; [done|]. split.
  - by rewrite list_fmap_id.
  - apply Forall_fmap. eapply Forall_impl; [done|]. intros s Hs arg. simpl.
    by apply binding_name_required.
Qed.

Lemma optional_entries opts :
  Forall (λ x, x ≠ EmptyString) opts →
  (optional_entry <$> opts).*1 = optional_spec <$> opts
  ∧ (optional_entry <$> opts).*2 = opts
  ∧ Forall (λ e, ∀ arg, binding_name e.1 arg = Normal (Some e.2))
      (optional_entry <$> opts).
Proof.
  intros H. rewrite <- !list_fmap_compose. split; [done|]. split.
  - by rewrite list_fmap_id.
  - apply Forall_fmap. eapply Forall_impl; [done|]. intros s Hs arg. simpl.
    by apply binding_name_optional.
Qed.

(** X7: a spec list of required names followed by optional names (all names
    distinct, optional names non-empty, no name ['__proto__']) is matched in
    order, whatever the number of arguments: the i-th name is bound to the
    i-th argument, names beyond the last argument stay absent, arguments
    beyond the last name are ignored. *)
Theorem required_then_optional_binds_in_order
    (reqs opts : list string) (args : list value) :
  Forall (λ s, charAt s 0 ≠ "?"%string) reqs →
  Forall (λ x, x ≠ EmptyString) opts →
  ordinary_names (reqs ++ opts) →
  NoDup (reqs ++ opts) →
  resolveArgs args ((name_spec <$> reqs) ++ (optional_spec <$> opts))
  = Normal (list_to_map (zip (reqs ++ opts) args)).
Proof.
  intros Hreq Hopt _ Hnd.
  destruct (required_entries reqs Hreq) as (Hr1 & Hr2 & HrF).
  destruct (optional_entries opts Hopt) as (Ho1 & Ho2 & HoF).
  unfold resolveArgs. rewrite prepared_in_order.
  - rewrite <- Hr1, <- Ho1, <- fmap_app.
    rewrite loop_consuming.
    + by rewrite fmap_app, Hr2, Ho2, drop_0, (right_id_L ∅ (∪)).
    + by apply Forall_app.
    + by rewrite fmap_app, Hr2, Ho2.
  - destruct Hreq as [|s reqs Hs _]; [right|left; by apply isRequired_name_spec].
    simpl. apply findTurningPoint_None. intros i Hi.
    rewrite length_fmap in Hi. destruct (lookup_lt_is_Some_2 opts i Hi) as [x Hx].
    unfold spec_at at 1. rewrite list_lookup_fmap, Hx. simpl.
    destruct opts; [by rewrite lookup_nil in Hx|done].
Qed.

Lemma required_then_optional_binds_in_order_witness :
  resolveArgs [VNum 1; VNum 2]
    ((name_spec <$> ["a"]%string) ++ (optional_spec <$> ["b"; "c"]%string))
  = Normal (list_to_map (zip ["a"; "b"; "c"]%string [VNum 1; VNum 2])).
Proof.
  apply (required_then_optional_binds_in_order ["a"]%string ["b"; "c"]%string).
  - repeat constructor; discriminate.
  - repeat constructor; discriminate.
  - apply (bool_decide_unpack (ordinary_names ["a"; "b"; "c"]%string)). reflexivity.
  - apply (bool_decide_unpack (NoDup ["a"; "b"; "c"]%string)). reflexivity.
Defined.

Lemma spec_at_optional_prefix opts rest i :
  i < length opts →
  isRequired (spec_at ((optional_spec <$> opts) ++ rest) i) = false.
Proof.
  intros Hi. destruct (lookup_lt_is_Some_2 opts i Hi) as [x Hx].
  unfold spec_at. rewrite lookup_app_l by by rewrite length_fmap.
  by rewrite list_lookup_fmap, Hx.
Qed.

Lemma turning_point_optional_then_required opts reqs :
  opts ≠ [] → reqs ≠ [] →
  Forall (λ s, charAt s 0 ≠ "?"%string) reqs →
  findTurningPoint ((optional_spec <$> opts) ++ (name_spec <$> reqs)) isRequired
  = Some (length opts).
Proof.
  intros Ho Hr Hreq. apply findTurningPoint_Some_iff.
  assert (0 < length opts) by (destruct opts; [done|simpl; lia]).
  assert (0 < length reqs) by (destruct reqs; [done|simpl; lia]).
  rewrite (spec_at_optional_prefix opts _ 0) by done.
  split; [rewrite length_app, !length_fmap; lia|]. split.
  - unfold spec_at. rewrite lookup_app_r by by rewrite length_fmap.
    rewrite length_fmap, Nat.sub_diag.
    destruct Hreq as [|s reqs Hs _]; [done|]. simpl.
    by destruct (String.eqb_spec (charAt s 0) "?").
  - intros i Hi. by apply spec_at_optional_prefix.
Qed.

Lemma zip_reverse {A B} (l : list A) (k : list B) :
  length l = length k → zip (reverse l) (reverse k) = reverse (zip l k).
Proof.
  revert k. induction l as [|x l IH]; intros [|y k] Hlen; try done.
  simpl in Hlen. rewrite !reverse_cons. simpl. rewrite reverse_cons.
  rewrite zip_with_app by (rewrite !length_reverse; lia).
  rewrite IH by lia. done.
Qed.

(** What the resolver computes for optional names followed by required
    names, as one equation. *)
Lemma resolveArgs_optional_then_required opts reqs args :
  opts ≠ [] →
  Forall (λ x, x ≠ EmptyString) opts →
  Forall (λ s, charAt s 0 ≠ "?"%string) reqs →
  NoDup (opts ++ reqs) →
  length reqs ≤ length args →
  resolveArgs args ((optional_spec <$> opts) ++ (name_spec <$> reqs))
  = Normal (list_to_map (zip reqs (drop (length args - length reqs) args))
            ∪ list_to_map (zip opts (take (length args - length reqs) args))).
Proof.
  intros Hne Hopt Hreq Hnd Hlen.
  destruct (required_entries reqs Hreq) as (Hr1 & Hr2 & HrF).
  destruct (optional_entries opts Hopt) as (Ho1 & Ho2 & HoF).
  assert (0 < length opts) as Hpos by (destruct opts; [done|simpl; lia]).
  unfold resolveArgs. destruct (decide (reqs = [])) as [->|Hreqs].
  - rewrite prepared_in_order.
    + simpl. rewrite app_nil_r, Nat.sub_0_r, take_ge by done.
      rewrite <- Ho1, loop_consuming by (done || by rewrite Ho2; apply NoDup_app in Hnd as [? _]).
      by rewrite Ho2, drop_0, (right_id_L ∅ (∪)), (left_id_L ∅ (∪)).
    + right. apply findTurningPoint_None. intros i Hi.
      rewrite app_nil_r, length_fmap in Hi. simpl.
      by rewrite !spec_at_optional_prefix.
  - rewrite (prepared_rotated _ _ (length opts)); simpl.
    2: by apply spec_at_optional_prefix.
    2: by apply turning_point_optional_then_required.
    rewrite !prepare_unfold, !length_app, !length_fmap.
    rewrite !relative_index_in_range by lia.
    rewrite Nat2Z.id.
    replace (Z.to_nat (Z.of_nat (length args)
               - (Z.of_nat (length opts + length reqs) - Z.of_nat (length opts))))
      with (length args - length reqs) by lia.
    set (k := length args - length reqs).
    assert (length (drop k args) = length reqs) as Hdk
      by (rewrite length_drop; unfold k; lia).
    replace (length opts) with (length (optional_spec <$> opts)) at 1 2
      by apply length_fmap.
    rewrite drop_app_length, take_app_length.
    rewrite <- fmap_reverse, <- (proj1 (required_entries (reverse reqs)
      (proj2 (Forall_reverse _ _) Hreq))), <- Ho1, <- fmap_app.
    rewrite loop_consuming.
    + rewrite fmap_app, Ho2, (proj1 (proj2 (required_entries (reverse reqs)
        (proj2 (Forall_reverse _ _) Hreq)))), drop_0, (right_id_L ∅ (∪)).
      rewrite zip_with_app by by rewrite !length_reverse.
      rewrite list_to_map_app, zip_reverse by done.
      rewrite <- (list_to_map_proper (zip reqs (drop k args))
                    (reverse (zip reqs (drop k args)))); [done| |].
      * rewrite fst_zip by lia. by apply NoDup_app in Hnd as (_ & _ & ?).
      * by rewrite reverse_Permutation.
    + apply Forall_app. split; [|done].
      apply (required_entries (reverse reqs)). by apply Forall_reverse.
    + rewrite fmap_app, Ho2, (proj1 (proj2 (required_entries (reverse reqs)
        (proj2 (Forall_reverse _ _) Hreq)))).
      by rewrite reverse_Permutation, (comm (++)).
Qed.

Lemma lookup_list_to_map_zip (names : list string) (vals : list value) i s :
  NoDup names → names !! i = Some s →
  (list_to_map (zip names vals) : obj) !! s = vals !! i.
Proof.
  intros Hnd Hi.
  assert (∀ a, (s, a) ∈ zip names vals → vals !! i = Some a) as Hin.
  { intros a [j Hj]%list_elem_of_lookup_1.
    apply lookup_zip_with_Some in Hj as (s' & a' & [= <- <-] & Hs & Ha).
    by rewrite (NoDup_lookup _ _ _ _ Hnd Hi Hs). }
  destruct (vals !! i) as [a|] eqn:Ha.
  - apply elem_of_list_to_map_1'.
    + intros y Hy. apply Hin in Hy. congruence.
    + apply (list_elem_of_lookup_2 _ i). apply lookup_zip_with_Some. eauto.
  - apply eq_None_not_Some. intros [a Hs%elem_of_list_to_map_2].
    by apply Hin in Hs.
Qed.

(** X8: the rotation does what it is for. With optional names followed by
    required names (the first entry optional, all names distinct, optional
    names non-empty, no name ['__proto__']) and at least as many arguments
    as required names, the
    required names are bound to the last arguments, in order, and the
    optional names to the arguments before them, left to right; an optional
    name with no argument left is absent. *)
Theorem optional_then_required_binds_from_both_ends
    (opts reqs : list string) (args : list value) :
  opts ≠ [] →
  Forall (λ x, x ≠ EmptyString) opts →
  Forall (λ s, charAt s 0 ≠ "?"%string) reqs →
  ordinary_names (opts ++ reqs) →
  NoDup (opts ++ reqs) →
  length reqs ≤ length args →
  ∃ m, resolveArgs args ((optional_spec <$> opts) ++ (name_spec <$> reqs)) = Normal m
    ∧ (∀ i s, reqs !! i = Some s →
         m !! s = args !! (length args - length reqs + i))
    ∧ (∀ i x, opts !! i = Some x →
         m !! x = if decide (i < length args - length reqs) then args !! i else None).
Proof.
  intros Hne Hopt Hreq _ Hnd Hlen. eexists. split.
  { by apply resolveArgs_optional_then_required. }
  apply NoDup_app in Hnd as (Hndo & Hdisj & Hndr). split.
  - intros i s Hi.
    pose proof (lookup_lt_Some _ _ _ Hi) as Hlt.
    destruct (lookup_lt_is_Some_2 args (length args - length reqs + i)) as [a Ha];
      [lia|].
    rewrite Ha. apply lookup_union_Some_l.
    rewrite (lookup_list_to_map_zip _ _ i) by done. by rewrite lookup_drop.
  - intros i x Hi. rewrite lookup_union_r.
    + rewrite (lookup_list_to_map_zip _ _ i) by done. apply lookup_take.
    + apply not_elem_of_list_to_map_1. intros Hin.
      apply list_elem_of_fmap in Hin as ([k' v] & -> & Hin).
      apply elem_of_zip_l in Hin. apply (Hdisj k'); [|done].
      by eapply list_elem_of_lookup_2.
Qed.

Lemma optional_then_required_binds_from_both_ends_witness :
  ∃ m, resolveArgs [VNum 1; VNum 2; VNum 3]
         ((optional_spec <$> ["a"; "b"]%string) ++ (name_spec <$> ["c"; "d"]%string))
       = Normal m
    ∧ (∀ i s, ["c"; "d"]%string !! i = Some s →
         m !! s = [VNum 1; VNum 2; VNum 3] !! (3 - 2 + i))
    ∧ (∀ i x, ["a"; "b"]%string !! i = Some x →
         m !! x = if decide (i < 3 - 2) then [VNum 1; VNum 2; VNum 3] !! i else None).
Proof.
  apply (optional_then_required_binds_from_both_ends
           ["a"; "b"]%string ["c"; "d"]%string [VNum 1; VNum 2; VNum 3]).
  - discriminate.
  - repeat constructor; discriminate.
  - repeat constructor; discriminate.
  - apply (bool_decide_unpack (ordinary_names ["a"; "b"; "c"; "d"]%string)).
    reflexivity.
  - apply (bool_decide_unpack (NoDup ["a"; "b"; "c"; "d"]%string)). reflexivity.
  - simpl. lia.
Defined.

(** *** Check functions *)

Lemma loop_required_prefix reqs args argIndex (result : obj) :
  Forall (λ s, charAt s 0 ≠ "?"%string) reqs →
  argIndex + length reqs ≤ length args →
  ∃ result', ∀ rest,
    loop ((name_spec <$> reqs) ++ rest) args argIndex result
    = loop rest args (argIndex + length reqs) result'.
Proof.
  intros Hreq. revert argIndex result.
  induction Hreq as [|s reqs Hs _ IH]; intros argIndex result Hlen; simpl in *.
  - exists result. intros rest. by rewrite Nat.add_0_r.
  - destruct (lookup_lt_is_Some_2 args argIndex) as [arg Harg]; [lia|].
    destruct (IH (S argIndex) (<[s := arg]> result)) as [result' Hr]; [lia|].
    exists result'. intros rest. rewrite Harg.
    rewrite body_required by by apply isRequired_name_spec.
    simpl. rewrite Hr. f_equal. lia.
Qed.

(** X17: a check function that rejects its argument is skipped. After a
    non-empty run of required names, a predicate entry that returns a falsy
    name for the argument at its position (an argument other than
    [undefined]) leaves the result as if the entry were not in the spec
    list: the argument goes to the entries that follow. *)
Theorem rejected_check_is_skipped
    (reqs : list string) (f : value → value) (rest : list spec)
    (args : list value) (arg : value) :
  reqs ≠ [] →
  Forall (λ s, charAt s 0 ≠ "?"%string) reqs →
  args !! length reqs = Some arg →
  arg ≠ VUndefined →
  truthy (f arg) = false →
  resolveArgs args ((name_spec <$> reqs) ++ SFun f :: rest)
  = resolveArgs args ((name_spec <$> reqs) ++ rest).
Proof.
  intros Hne Hreq Harg Hdef Hf.
  assert (∀ l, prepared args ((name_spec <$> reqs) ++ l)
               = ((name_spec <$> reqs) ++ l, args)) as Hp.
  { intros l. apply prepared_in_order. left.
    destruct Hreq as [|s reqs Hs _]; [done|]. by apply isRequired_name_spec. }
  unfold resolveArgs. rewrite !Hp.
  destruct (loop_required_prefix reqs args 0 ∅ Hreq) as [result' Hr].
  { apply lookup_lt_Some in Harg. lia. }
  rewrite !Hr. simpl. rewrite Harg, body_predicate, Hf.
  by destruct arg.
Qed.

Lemma rejected_check_is_skipped_witness :
  resolveArgs [VNum 1; VStr "text"]
    ((name_spec <$> ["a"]%string) ++ SFun number_named_x :: [optional_spec "c"])
  = resolveArgs [VNum 1; VStr "text"]
      ((name_spec <$> ["a"]%string) ++ [optional_spec "c"]).
Proof.
  apply (rejected_check_is_skipped ["a"]%string number_named_x
           [optional_spec "c"] [VNum 1; VStr "text"] (VStr "text"));
    [discriminate | repeat constructor; discriminate | reflexivity
    | discriminate | reflexivity].
Defined.

(** ** [find] *)

Lemma find_from_cases arr pred i rest :
  (∃ j x, rest !! j = Some x
     ∧ truthy (pred x (i + j) arr) = true
     ∧ (∀ j' y, j' < j → rest !! j' = Some y → truthy (pred y (i + j') arr) = false)
     ∧ find_from arr pred i rest = x)
  ∨ ((∀ j x, rest !! j = Some x → truthy (pred x (i + j) arr) = false)
     ∧ find_from arr pred i rest = VNull).
Proof.
  revert i. induction rest as [|x rest IH]; intros i; simpl.
  - right. split; [|done]. intros j y Hj. by rewrite lookup_nil in Hj.
  - destruct (truthy (pred x i arr)) eqn:Hx.
    + left. exists 0, x. rewrite Nat.add_0_r. repeat split; try done. lia.
    + destruct (IH (S i)) as [(j & y & Hj & Hy & Hbefore & Hf)|[Hnone Hf]].
      * left. exists (S j), y. rewrite <- Nat.add_succ_comm.
        repeat split; try done.
        intros [|j'] z Hlt Hz; simpl in Hz.
        -- injection Hz as <-. by rewrite Nat.add_0_r.
        -- rewrite <- Nat.add_succ_comm. apply Hbefore; [lia|done].
      * right. split; [|done]. intros [|j] z Hz; simpl in Hz.
        -- injection Hz as <-. by rewrite Nat.add_0_r.
        -- rewrite <- Nat.add_succ_comm. by apply Hnone.
Qed.

(** X9: [find] returns the first element its predicate accepts: if [pred]
    (given the value, its index and the array) is truthy at index [i] and
    falsy at every earlier index, the result is the element at [i]. *)
Theorem find_returns_first_match
    (arr : list value) (pred : value → nat → list value → value) (i : nat) (x : value) :
  arr !! i = Some x →
  truthy (pred x i arr) = true →
  (∀ j y, j < i → arr !! j = Some y → truthy (pred y j arr) = false) →
  find arr pred = x.
Proof.
  intros Hi Hx Hbefore. unfold find.
  destruct (find_from_cases arr pred 0 arr)
    as [(j & y & Hj & Hy & Hb & ->)|[Hnone _]]; simpl in *.
  - destruct (Nat.lt_trichotomy j i) as [H|[->|H]].
    + rewrite (Hbefore j y H Hj) in Hy. discriminate.
    + congruence.
    + rewrite (Hb i x H Hi) in Hx. discriminate.
  - rewrite (Hnone i x Hi) in Hx. discriminate.
Qed.

Lemma find_returns_first_match_witness :
  find [VStr "a"; VNum 4; VNum 5] (λ v _ _, number_named_x v) = VNum 4.
Proof.
  apply (find_returns_first_match _ _ 1); [reflexivity|reflexivity|].
  intros [|j] y Hj Hy; [by injection Hy as <-|lia].
Defined.

(** X10: [find] returns [null] when the predicate accepts no element (so on
    the empty array), and a result other than [null] is always an element of
    the array that the predicate accepts at its index. *)
Theorem find_null_or_accepted
    (arr : list value) (pred : value → nat → list value → value) :
  ((∀ i x, arr !! i = Some x → truthy (pred x i arr) = false) →
   find arr pred = VNull)
  ∧ (find arr pred ≠ VNull →
     ∃ i, arr !! i = Some (find arr pred)
          ∧ truthy (pred (find arr pred) i arr) = true).
Proof.
  unfold find.
  destruct (find_from_cases arr pred 0 arr)
    as [(j & y & Hj & Hy & Hb & Hf)|[Hnone Hf]]; simpl in *; rewrite Hf.
  - split; [|eauto]. intros Hnone. rewrite (Hnone j y Hj) in Hy. discriminate.
  - split; [done|]. by intros [].
Qed.

Lemma find_null_or_accepted_witness :
  find [] (λ v _ _, number_named_x v) = VNull.
Proof.
  apply (proj1 (find_null_or_accepted [] (λ v _ _, number_named_x v))).
  intros i x Hi. by rewrite lookup_nil in Hi.
Defined.

(** ** [startsWith] *)

Lemma append_cons a (s t : string) : String a s +:+ t = String a (s +:+ t).
Proof. reflexivity. Qed.

Lemma append_nil_l (t : string) : EmptyString +:+ t = t.
Proof. reflexivity. Qed.

Lemma prefix_iff_append (s2 s1 : string) :
  String.prefix s2 s1 = true ↔ ∃ rest, s1 = s2 +:+ rest.
Proof.
  revert s1. induction s2 as [|a s2 IH]; intros s1; simpl.
  - destruct s1; (split; [|done]); intros _; eexists; by rewrite append_nil_l.
  - setoid_rewrite append_cons. destruct s1 as [|b s1]; simpl.
    + split; [done|]. by intros [rest [=]].
    + destruct (Ascii.ascii_dec a b) as [->|Hne].
      * rewrite IH. split; intros [rest Hr]; exists rest; congruence.
      * split; [done|]. intros [rest [=]]. done.
Qed.

Lemma indexOf_from_bounds k s search :
  indexOf_from k s search = (-1)%Z
  ∨ (Z.of_nat k ≤ indexOf_from k s search)%Z.
Proof.
  revert k. induction s as [|a s IH]; intros k; cbn [indexOf_from].
  - destruct (String.prefix search ""); [right; lia|by left].
  - destruct (String.prefix search (String a s)); [right; lia|].
    destruct (IH (S k)) as [->|H]; [by left|right; lia].
Qed.

Lemma indexOf_from_here k s search :
  indexOf_from k s search = Z.of_nat k ↔ String.prefix search s = true.
Proof.
  destruct s as [|a s]; cbn [indexOf_from].
  - destruct (String.prefix search ""); [done|]. split; [lia|done].
  - destruct (String.prefix search (String a s)); [done|]. split; [|done].
    destruct (indexOf_from_bounds (S k) s search) as [->|H]; lia.
Qed.

(** X11: [startsWith(s1, s2)] is true exactly when [s2] is a prefix of [s1];
    in particular every string starts with the empty string and with
    itself. *)
Theorem startsWith_iff_prefix (s1 s2 : string) :
  (startsWith s1 s2 = true ↔ ∃ rest, s1 = s2 +:+ rest)
  ∧ startsWith s1 EmptyString = true
  ∧ startsWith s1 s1 = true.
Proof.
  assert (∀ a b, startsWith a b = true ↔ ∃ rest, a = b +:+ rest) as H.
  { intros a b. unfold startsWith, indexOf.
    rewrite Z.eqb_eq, (indexOf_from_here 0). apply prefix_iff_append. }
  split; [apply H|]. split; apply H.
  - by exists s1.
  - exists EmptyString. clear H.
    induction s1 as [|a s1 IH]; [done|]. rewrite append_cons. congruence.
Qed.

(** ** [shallowMerge] *)

Lemma shallowMerge_union (source dest : obj) :
  Util.shallowMerge source dest = source ∪ dest.
Proof.
  unfold Util.shallowMerge.
  apply (map_fold_weak_ind (λ r m, r = m ∪ dest)).
  - by rewrite (left_id_L ∅ (∪)).
  - intros k v m r Hk ->. by rewrite insert_union_l.
Qed.

(** X12: for a [source] with no own property ['__proto__'] or
    ['hasOwnProperty'], after [shallowMerge(source, dest)] a property has
    the value it has in [source] if [source] has it, and the value it had in
    [dest] otherwise; the keys are those of either object, and merging the
    same source again changes nothing. *)
Theorem shallowMerge_source_wins (source dest : obj) :
  plain_props source →
  (∀ k, Util.shallowMerge source dest !! k
        = match source !! k with
          | Some v => Some v
          | None => dest !! k
          end)
  ∧ dom (Util.shallowMerge source dest) = dom source ∪ dom dest
  ∧ Util.shallowMerge source (Util.shallowMerge source dest)
    = Util.shallowMerge source dest
  ∧ Util.shallowMerge ∅ dest = dest.
Proof.
  intros _. rewrite !shallowMerge_union. split; [|split; [|split]].
  - intros k. rewrite lookup_union. by destruct (source !! k), (dest !! k).
  - apply dom_union_L.
  - by rewrite (assoc_L (∪)), (idemp_L (∪)).
  - by rewrite (left_id_L ∅ (∪)).
Qed.

Lemma shallowMerge_source_wins_witness :
  Util.shallowMerge {[ "a"%string := VNum 1 ]}
    {[ "a"%string := VNum 0; "b"%string := VNum 2 ]} !! "a"%string
  = match ({[ "a"%string := VNum 1 ]} : obj) !! "a"%string with
    | Some v => Some v
    | None => ({[ "a"%string := VNum 0; "b"%string := VNum 2 ]} : obj) !! "a"%string
    end.
Proof.
  apply (shallowMerge_source_wins {[ "a"%string := VNum 1 ]}
           {[ "a"%string := VNum 0; "b"%string := VNum 2 ]}).
  split; reflexivity.
Defined.

Section shallowMerge_store.
Implicit Types (σ : Heap.store).

Lemma wp_hasOwnProperty o k σ m (Q : completion bool → Heap.store → Prop) :
  σ !! o = Some (Heap.CObj m) →
  Q (Normal (bool_decide (is_Some (m !! k)))) σ →
  Heap.wp (Heap.hasOwnProperty o k) σ Q.
Proof. intros Ho H. apply wp_bind, (wp_load _ _ _ _ Ho). by apply wp_ret. Qed.

Lemma wp_obj_get o k σ m (Q : completion value → Heap.store → Prop) :
  σ !! o = Some (Heap.CObj m) →
  Q (Normal (default VUndefined (m !! k))) σ →
  Heap.wp (Heap.obj_get o k) σ Q.
Proof. intros Ho H. apply wp_bind, (wp_load _ _ _ _ Ho). by apply wp_ret. Qed.

Lemma wp_shallowMerge_loop props source dest σ ms md
    (Q : completion unit → Heap.store → Prop) :
  source ≠ dest →
  σ !! source = Some (Heap.CObj ms) →
  σ !! dest = Some (Heap.CObj md) →
  Q (Normal tt) (<[dest := Heap.CObj (foldl (merge_visit ms) md props)]> σ) →
  Heap.wp (Heap.shallowMerge_loop props source dest) σ Q.
Proof.
  intros Hne. revert σ md.
  induction props as [|prop props IH]; intros σ md Hs Hd HQ; simpl in *.
  - apply wp_ret. by rewrite insert_id in HQ.
  - apply wp_bind. eapply wp_hasOwnProperty; [done|].
    unfold merge_visit at 2 in HQ.
    destruct (ms !! prop) as [v|] eqn:Hp; simpl.
    + apply wp_bind, wp_bind. eapply wp_obj_get; [done|]. rewrite Hp. simpl.
      eapply wp_obj_set; [done|].
      eapply IH; [by rewrite lookup_insert_ne|apply lookup_insert_eq|].
      by rewrite insert_insert_eq.
    + apply wp_bind, wp_ret. by eapply IH.
Qed.

Lemma wp_shallowMerge_loop_alias props o σ m
    (Q : completion unit → Heap.store → Prop) :
  σ !! o = Some (Heap.CObj m) →
  Q (Normal tt) σ →
  Heap.wp (Heap.shallowMerge_loop props o o) σ Q.
Proof.
  intros Ho HQ. induction props as [|prop props IH]; simpl.
  - by apply wp_ret.
  - apply wp_bind. eapply wp_hasOwnProperty; [done|].
    destruct (m !! prop) as [v|] eqn:Hp; simpl.
    + apply wp_bind, wp_bind. eapply wp_obj_get; [done|]. rewrite Hp. simpl.
      eapply wp_obj_set; [done|].
      rewrite (insert_id m) by done. by rewrite insert_id.
    + by apply wp_bind, wp_ret.
Qed.

Lemma foldl_merge_visit_lookup ms props md k :
  foldl (merge_visit ms) md props !! k
  = match (if decide (k ∈ props) then ms !! k else None) with
    | Some v => Some v
    | None => md !! k
    end.
Proof.
  revert md. induction props as [|prop props IH]; intros md; simpl; [done|].
  rewrite IH. unfold merge_visit.
  destruct (decide (k ∈ props)) as [Hin|Hnin].
  - rewrite decide_True by by right.
    destruct (ms !! k) eqn:Hk; [done|].
    destruct (ms !! prop) eqn:Hp; [|done].
    rewrite lookup_insert_ne; [done|congruence].
  - destruct (decide (k = prop)) as [->|Hne].
    + rewrite decide_True by by left.
      destruct (ms !! prop); [by rewrite lookup_insert_eq|done].
    + rewrite decide_False by (intros [?|?]%elem_of_cons; done).
      destruct (ms !! prop); [by rewrite lookup_insert_ne|done].
Qed.

Lemma foldl_merge_visit_keys (ms md : obj) :
  foldl (merge_visit ms) md (fst <$> map_to_list ms) = ms ∪ md.
Proof.
  apply map_eq. intros k. rewrite foldl_merge_visit_lookup, lookup_union.
  destruct (ms !! k) as [v|] eqn:Hk.
  - rewrite decide_True; [by destruct (md !! k)|].
    apply list_elem_of_fmap. exists (k, v). split; [done|].
    by apply elem_of_map_to_list.
  - case_decide; by destruct (md !! k).
Qed.

End shallowMerge_store.

(** X13: over the store, for a [source] with no own property ['__proto__']
    or ['hasOwnProperty'], [shallowMerge(source, dest)] returns [dest]
    itself and writes nothing but [dest], which ends up holding the
    properties of [source] over its own; [source] and every other object
    are unchanged, also when [source] and [dest] are the same object. *)
Theorem shallowMerge_writes_dest_only (σ : Heap.store) (source dest : Heap.loc)
    (ms md : obj) :
  σ !! source = Some (Heap.CObj ms) →
  σ !! dest = Some (Heap.CObj md) →
  plain_props ms →
  Heap.shallowMerge source dest σ
  = Some (Normal dest, <[dest := Heap.CObj (Util.shallowMerge ms md)]> σ)
  ∧ (source ≠ dest →
     <[dest := Heap.CObj (Util.shallowMerge ms md)]> σ !! source
     = Some (Heap.CObj ms))
  ∧ (source = dest → <[dest := Heap.CObj (Util.shallowMerge ms md)]> σ = σ).
Proof.
  intros Hs Hd _. rewrite shallowMerge_union. split; [|split].
  - cut (Heap.wp (Heap.shallowMerge source dest) σ
           (λ c σ', c = Normal dest ∧ σ' = <[dest := Heap.CObj (ms ∪ md)]> σ)).
    { by intros (c & σ' & -> & -> & ->). }
    unfold Heap.shallowMerge.
    apply wp_bind, wp_bind, (wp_load _ _ _ _ Hs), wp_ret.
    apply wp_bind. destruct (decide (source = dest)) as [->|Hne].
    + eapply wp_shallowMerge_loop_alias; [done|]. apply wp_ret.
      split; [done|]. rewrite Hs in Hd. injection Hd as <-.
      by rewrite (idemp_L (∪)), insert_id.
    + eapply wp_shallowMerge_loop; [done..|]. apply wp_ret.
      by rewrite foldl_merge_visit_keys.
  - intros Hne. by rewrite lookup_insert_ne.
  - intros ->. rewrite Hs in Hd. injection Hd as <-.
    by rewrite (idemp_L (∪)), insert_id.
Qed.

Lemma shallowMerge_writes_dest_only_witness :
  Heap.shallowMerge 0 1
    {[ 0 := Heap.CObj {[ "a"%string := VNum 1 ]};
       1 := Heap.CObj {[ "a"%string := VNum 0; "b"%string := VNum 2 ]} ]}
  = Some (Normal 1,
          <[1 := Heap.CObj (Util.shallowMerge {[ "a"%string := VNum 1 ]}
                              {[ "a"%string := VNum 0; "b"%string := VNum 2 ]})]>
            {[ 0 := Heap.CObj {[ "a"%string := VNum 1 ]};
               1 := Heap.CObj {[ "a"%string := VNum 0; "b"%string := VNum 2 ]} ]}).
Proof.
  apply (shallowMerge_writes_dest_only _ 0 1); [reflexivity|reflexivity|].
  split; reflexivity.
Defined.

(** ** [papply] *)

Lemma merge_into_empty (props : obj) : Util.shallowMerge props ∅ = props.
Proof. by rewrite shallowMerge_union, (right_id_L ∅ (∪)). Qed.

Lemma union_absorb_r (a b : obj) : (a ∪ b) ∪ b = a ∪ b.
Proof. by rewrite <- (assoc_L (∪)), (idemp_L (∪)). Qed.

Lemma union_absorb_l (a b : obj) : (a ∪ b) ∪ a = a ∪ b.
Proof.
  apply map_eq. intros k. rewrite !lookup_union.
  by destruct (a !! k), (b !! k).
Qed.

Lemma papply_plain_props {R} (comp : component R) (props : option obj) override :
  _props comp = None → _props (papply comp props override) = props.
Proof. intros Hc. unfold papply. by rewrite Hc. Qed.

(** X14: applying [papply] to a component without [_props] stores [props]
    as they are. Calling the result with properties passes the component
    those properties over the stored ones, and calling it without passes the
    stored ones; the component's second argument is the array of the
    remaining arguments, or [null] when there are none. The property
    objects have no own property ['__proto__'] or ['hasOwnProperty']. *)
Theorem papply_plain_component {R} (comp : component R) (props props2 : obj)
    (override : value) (rest : list jsarg) :
  _props comp = None →
  plain_props props →
  plain_props props2 →
  _props (papply comp (Some props) override) = Some props
  ∧ call (papply comp (Some props) override) (Some props2) rest
    = call comp (Some (props2 ∪ props)) [effectiveChildren rest]
  ∧ call (papply comp (Some props) override) None rest
    = call comp (Some props) [effectiveChildren rest].
Proof.
  intros Hc _ _. unfold papply. rewrite Hc. simpl.
  by rewrite merge_into_empty, shallowMerge_union.
Qed.

Lemma papply_plain_component_witness :
  _props (papply (Component (λ props rest, (props, rest)) None)
            (Some {[ "a"%string := VNum 1 ]}) VUndefined)
  = Some {[ "a"%string := VNum 1 ]}.
Proof.
  apply (papply_plain_component (Component (λ props rest, (props, rest)) None)
           {[ "a"%string := VNum 1 ]} ∅ VUndefined []);
    [reflexivity | split; reflexivity | split; reflexivity].
Defined.

(** X15: applying [papply] to a component that already carries [_props]
    merges: the new properties win unless [override] is [false], in which
    case the properties the component had win. The property objects have
    no own property ['__proto__'] or ['hasOwnProperty']. *)
Theorem papply_merges_stored_props {R} (comp : component R) (comp_props props : obj)
    (override : value) :
  _props comp = Some comp_props →
  plain_props comp_props →
  plain_props props →
  _props (papply comp (Some props) override)
  = Some (if decide (override = VBool false)
          then comp_props ∪ props
          else props ∪ comp_props).
Proof.
  intros Hc _ _. unfold papply. rewrite Hc. simpl. f_equal.
  destruct (decide (override = VBool false)) as [->|Hne].
  - simpl. by rewrite merge_into_empty, shallowMerge_union.
  - rewrite bool_decide_false by done. simpl.
    by rewrite merge_into_empty, shallowMerge_union.
Qed.

Lemma papply_merges_stored_props_witness :
  _props (papply (Component (λ props rest, (props, rest))
                    (Some {[ "a"%string := VNum 1 ]}))
            (Some {[ "a"%string := VNum 2 ]}) (VBool false))
  = Some (if decide (VBool false = VBool false)
          then {[ "a"%string := VNum 1 ]} ∪ {[ "a"%string := VNum 2 ]}
          else {[ "a"%string := VNum 2 ]} ∪ {[ "a"%string := VNum 1 ]}).
Proof.
  apply (papply_merges_stored_props
           (Component (λ props rest, (props, rest)) (Some {[ "a"%string := VNum 1 ]})));
    [reflexivity | split; reflexivity | split; reflexivity].
Defined.

(** X16: [papply] applied twice. Calling [papply(papply(comp, p1), p2, o)]
    with properties [p3] passes the plain component [comp] the three
    property sets merged, [p3] over the stored merge of [p1] and [p2] ([p2]
    over [p1] unless [o] is [false]); the remaining arguments reach [comp]
    wrapped in an array once per application, so twice here. The property
    objects have no own property ['__proto__'] or ['hasOwnProperty']. *)
Theorem papply_twice {R} (comp : component R) (p1 p2 p3 : obj)
    (override1 override2 : value) (rest : list jsarg) :
  _props comp = None →
  plain_props p1 →
  plain_props p2 →
  plain_props p3 →
  call (papply (papply comp (Some p1) override1) (Some p2) override2) (Some p3) rest
  = call comp
      (Some (p3 ∪ (if decide (override2 = VBool false) then p1 ∪ p2 else p2 ∪ p1)))
      [AArr [effectiveChildren rest]].
Proof.
  intros Hc _ _ _. unfold papply at 1.
  rewrite (papply_plain_props comp (Some p1) override1 Hc).
  cbn [call papply_f].
  set (stored := if negb (bool_decide (override2 = VBool false))
                 then shallowMerge_props (Some p2) (Util.shallowMerge p1 ∅)
                 else Util.shallowMerge p1 (shallowMerge_props (Some p2) ∅)).
  assert (stored = if decide (override2 = VBool false) then p1 ∪ p2 else p2 ∪ p1)
    as ->.
  { unfold stored. simpl. rewrite !merge_into_empty, !shallowMerge_union.
    by destruct (decide (override2 = VBool false));
      [rewrite bool_decide_true|rewrite bool_decide_false]. }
  rewrite merge_into_empty, shallowMerge_union.
  unfold papply. rewrite Hc. cbn [call papply_f effectiveChildren].
  rewrite merge_into_empty, shallowMerge_union. do 2 f_equal.
  rewrite <- (assoc_L (∪)). f_equal.
  destruct (decide (override2 = VBool false));
    [apply union_absorb_l|apply union_absorb_r].
Qed.

Lemma papply_twice_witness :
  call (papply (papply (Component (λ props rest, (props, rest)) None)
                  (Some {[ "a"%string := VNum 1 ]}) VUndefined)
          (Some {[ "a"%string := VNum 2 ]}) VUndefined)
    (Some ∅) [AVal (VStr "child")]
  = (Some (∅ ∪ (if decide (VUndefined = VBool false)
                then {[ "a"%string := VNum 1 ]} ∪ {[ "a"%string := VNum 2 ]}
                else {[ "a"%string := VNum 2 ]} ∪ {[ "a"%string := VNum 1 ]})),
     [AArr [effectiveChildren [AVal (VStr "child")]]]).
Proof.
  apply (papply_twice (Component (λ props rest, (props, rest)) None)
           {[ "a"%string := VNum 1 ]} {[ "a"%string := VNum 2 ]} ∅
           VUndefined VUndefined [AVal (VStr "child")]);
    [reflexivity | split; reflexivity | split; reflexivity | split; reflexivity].
Defined.
